(** * Character-level tweet generator (workshop 5): dataset, trainer, generator

    A shallow embedding of [notebooks/workshop-5/tweet_generator.ipynb].

    - Python strings are lists of Unicode code points ([N]); a one-character
      string and a character are the same thing, as in Python.
    - Python [set] is a [gset]; its iteration order is unspecified (string
      hashes are salted per process), so [list(chars)] is a parameter
      [set_iter] of the dataset constructor.
    - Python [dict] is a [gmap]; a subscript with a missing key raises
      [KeyError].
    - Exceptions are values of [exn]; fallible code lives in [result], and
      code that also calls the network or the random sampler lives in the
      state-and-error monad [M].
    - The numeric content of the network (GRU cell, linear layer, softmax,
      loss, optimiser) is abstract: only shapes are modelled. *)

From stdpp Require Import gmap list sorting fin_maps.
From Stdlib Require Import QArith.

Local Open Scope nat_scope.

(** ** Python values *)

Abbreviation char := N (only parsing).
Abbreviation str := (list N) (only parsing).

(** [' '] *)
Definition space : char := 32%N.

Inductive exn : Type :=
| KeyError (c : char)        (* char2int[c], c missing: the unknown-character condition *)
| KeyErrorInt (i : nat)      (* int2char[i], i missing *)
| IndexError                 (* list or tensor subscript out of range *)
| AssertionError
| AttributeError             (* int has no attribute item *)
| RuntimeError.              (* raised by torch: shape mismatch, invalid distribution *)

Inductive result (A : Type) : Type :=
| Ok (a : A)
| Err (e : exn).
Arguments Ok {A} a.
Arguments Err {A} e.

Module Res.
Definition bind {A B} (r : result A) (k : A → result B) : result B :=
  match r with
  | Ok a => k a
  | Err e => Err e
  end.

(** A list comprehension or an appending loop whose body may raise: the
    first exception aborts the loop. *)
Fixpoint for_each {A B} (f : A → result B) (l : list A) : result (list B) :=
  match l with
  | [] => Ok []
  | x :: l' => bind (f x) (λ y, bind (for_each f l') (λ ys, Ok (y :: ys)))
  end.
End Res.

Notation "'try' x <- e ; k" := (Res.bind e (λ x, k))
  (at level 10, x name, e at level 100, k at level 200).

(** [range(start, stop, step)] for [step > 0]: CPython computes the number of
    items as [(stop - start + step - 1) // step]. *)
Definition py_range (start stop step : nat) : list nat :=
  (λ k, start + k * step) <$> seq 0 ((stop - start + step - 1) / step).

(** [s[i:j]] for [0 <= i], [0 <= j]: bounds are clamped to the length. *)
Definition slice {A} (s : list A) (i j : nat) : list A := take (j - i) (drop i s).

(** [s[:-1]] *)
Definition but_last {A} (s : list A) : list A := take (length s - 1) s.

(** [s[1:]] *)
Definition from_1 {A} (s : list A) : list A := drop 1 s.

(** [l[-1]] *)
Definition item_last {A} (l : list A) : result A :=
  match last l with
  | Some x => Ok x
  | None => Err IndexError
  end.

(** [l[0]] *)
Definition item_0 {A} (l : list A) : result A :=
  match l with
  | x :: _ => Ok x
  | [] => Err IndexError
  end.

(** ** TweetDataset *)

Record TweetDataset : Type := mkTweetDataset {
  seq_len : nat;
  data : list (list N);                   (* self.data['tweet'].values *)
  chars : list N;
  vocab_size : nat;
  int2char : gmap nat N;
  char2int : gmap N nat;
  sequences : list (list N * list N)
}.

(** [enumerate(l)] *)
Definition enumerate {A} (l : list A) : list (nat * A) := imap pair l.

(** [dict(items)]: later items overwrite earlier ones. *)
Definition dict `{Countable K} {V} (items : list (K * V)) : gmap K V :=
  foldl (λ m kv, <[kv.1 := kv.2]> m) ∅ items.

Section Dataset.
(** [list(s)] for a set [s]: some enumeration of its elements. *)
Variable set_iter : gset N → list N.

Definition _get_unique_chars (data : list (list N)) : list N :=
  let chars : gset N :=
    foldl (λ chars tweet, foldl (λ chars char, {[char]} ∪ chars) chars tweet) ∅ data in
  let chars := set_iter chars in
  merge_sort N.le chars.

(** One iteration of the inner loop of [_create_sequences]: the slice at
    offset [i], padded, checked by the assertion. *)
Definition padded_slice (seq_len : nat) (tweet : list N) (i : nat) : result (list N) :=
  let seq := slice tweet i (i + seq_len + 1) in
  let seq :=
    if decide (length seq < seq_len + 1)
    then seq ++ replicate (seq_len + 1 - length seq) space
    else seq in
  if decide (length seq = seq_len + 1) then Ok seq else Err AssertionError.

Definition _create_sequences (data : list (list N)) (seq_len : nat)
  : result (list (list N * list N)) :=
  try seqs <- Res.for_each (λ tweet,
      Res.for_each (padded_slice seq_len tweet) (py_range 0 (length tweet) (seq_len + 1)))
    data;
  let seqs := concat seqs in
  let inputs := but_last <$> seqs in
  let targets := from_1 <$> seqs in
  Ok (zip inputs targets).

(** [TweetDataset(path, seq_len)], after [pd.read_csv(path)] has produced
    the tweet column [data].  [self.int2char.items()] lists the pairs in
    insertion order, which is [enumerate(self.chars)] again. *)
Definition TweetDataset_init (data : list (list N)) (seq_len : nat) : result TweetDataset :=
  let chars := _get_unique_chars data in
  let vocab_size := length chars in
  let int2char : gmap nat N := dict (enumerate chars) in
  let char2int : gmap N nat := dict ((λ ic : nat * N, (ic.2, ic.1)) <$> enumerate chars) in
  try sequences <- _create_sequences data seq_len;
  Ok (mkTweetDataset seq_len data chars vocab_size int2char char2int sequences).
End Dataset.

(** [self.char2int[c]] *)
Definition char2int_get (dataset : TweetDataset) (c : char) : result nat :=
  match char2int dataset !! c with
  | Some i => Ok i
  | None => Err (KeyError c)
  end.

(** [self.int2char[i]] *)
Definition int2char_get (dataset : TweetDataset) (i : nat) : result char :=
  match int2char dataset !! i with
  | Some c => Ok c
  | None => Err (KeyErrorInt i)
  end.

Definition _encode_sequence (dataset : TweetDataset) (seq : list N) : result (list nat) :=
  Res.for_each (char2int_get dataset) seq.

(** [vec = [0] * vocab_size; vec[s] = 1] *)
Definition one_hot (vocab_size s : nat) : result (list nat) :=
  let vec := replicate vocab_size 0 in
  if decide (s < length vec) then Ok (<[s := 1]> vec) else Err IndexError.

Definition _one_hot_sequence (seq : list nat) (vocab_size : nat) : result (list (list nat)) :=
  Res.for_each (one_hot vocab_size) seq.

(** The index-to-character direction on whole sequences, as [generate] does
    for each sampled index: [dataset.int2char[top]]. *)
Definition decode_sequence (dataset : TweetDataset) (idxs : list nat) : result (list N) :=
  Res.for_each (int2char_get dataset) idxs.

(** [dataset[idx]] up to the conversion to tensors. *)
Definition TweetDataset_getitem (dataset : TweetDataset) (idx : nat)
  : result (list (list nat) * list nat) :=
  match sequences dataset !! idx with
  | None => Err IndexError
  | Some (inpt, target) =>
      try inpt <- _encode_sequence dataset inpt;
      try inpt <- _one_hot_sequence inpt (vocab_size dataset);
      try target <- _encode_sequence dataset target;
      Ok (inpt, target)
  end.

(** ** The recurrent model and the generator *)

(** What the outside world can observe of a call to [generate]: the network
    steps, with their input vector, and the draws from the sampler. *)
Inductive event : Type :=
| EvForward (x : list nat)
| EvSample (top : nat).

Definition HIDDEN_SIZE : nat := 128.
Definition N_LAYERS : nat := 1.

Section Generator.
(** Tensor scalars, hidden states, network weights, state of the random
    number generator. *)
Context {Num Hidden Params Rng : Type}.

Record GRU : Type := mkGRU {
  input_size : nat;
  hidden_size : nat;
  output_size : nat;
  n_layers : nat;
  weights : Params
}.

(** [GRU(input_size, HIDDEN_SIZE, input_size, N_LAYERS)] with
    [input_size = dataset.vocab_size], holding the weights [w]. *)
Definition model_for (dataset : TweetDataset) (w : Params) : GRU :=
  let input_size := vocab_size dataset in
  mkGRU input_size HIDDEN_SIZE input_size N_LAYERS w.

(** The arithmetic of [self.gru] followed by [self.fc] on one input vector
    (batch size 1, one time step), [torch.zeros], [F.softmax] and the draw
    of [torch.multinomial(dist, 1)[0]] from a non-empty distribution. *)
Variable gru_fc : GRU → list nat → Hidden → list Num * Hidden.
Variable zeros : nat → nat → nat → Hidden.
Variable softmax : list Num → list Num.
Variable multinomial : list Num → Rng → nat * Rng.

Record World : Type := mkWorld {
  rng : Rng;
  log : list event
}.

Definition emit (e : event) (w : World) : World :=
  mkWorld (rng w) (log w ++ [e]).

(** State and exceptions: an exception leaves the world as it was when it
    was raised. *)
Definition M (A : Type) : Type := World → result A * World.

Definition ret {A} (a : A) : M A := λ w, (Ok a, w).

Definition bind {A B} (m : M A) (k : A → M B) : M B :=
  λ w, match m w with
       | (Ok a, w') => k a w'
       | (Err e, w') => (Err e, w')
       end.

Definition lift {A} (r : result A) : M A := λ w, (r, w).

Local Notation "'do' x <- e ; k" := (bind e (λ x, k))
  (at level 10, x name, e at level 100, k at level 200).

(** [model(x, hidden)] for [x] of shape [1, 1, len(x)]: torch rejects an
    input whose last dimension is not [input_size]. *)
Definition forward (model : GRU) (x : list nat) (hidden : Hidden)
  : M (list Num * Hidden) :=
  λ w, if decide (length x = input_size model)
       then (Ok (gru_fc model x hidden), emit (EvForward x) w)
       else (Err RuntimeError, w).

Definition init_hidden (model : GRU) (batch_size : nat) : Hidden :=
  zeros (n_layers model) batch_size (hidden_size model).

(** [torch.multinomial(output_dist, 1)[0]]: no draw from zero categories. *)
Definition multinomial_1 (output_dist : list Num) : M nat :=
  λ w, match output_dist with
       | [] => (Err RuntimeError, w)
       | _ :: _ =>
           let (top, g) := multinomial output_dist (rng w) in
           (Ok top, emit (EvSample top) (mkWorld g (log w)))
       end.

(** [for s in start: _, hidden = model(s, hidden)] *)
Fixpoint prime (model : GRU) (start : list (list nat)) (hidden : Hidden) : M Hidden :=
  match start with
  | [] => ret hidden
  | s :: start' =>
      do oh <- forward model s hidden;
      prime model start' oh.2
  end.

(** [for i in range(length): ...] with the loop variables [inpt], [hidden]
    and [res]. *)
Fixpoint sample_loop (model : GRU) (dataset : TweetDataset) (length : nat)
    (inpt : list nat) (hidden : Hidden) (res : list N) : M (list N) :=
  match length with
  | 0 => ret res
  | S length' =>
      do oh <- forward model inpt hidden;
      let output := oh.1 in
      let hidden := oh.2 in
      let output_dist := softmax output in
      do top <- multinomial_1 output_dist;
      do char <- lift (int2char_get dataset top);
      let res := res ++ [char] in
      do inpt <- lift (_encode_sequence dataset [char]);
      do inpt <- lift (try v <- _one_hot_sequence inpt (vocab_size dataset); item_0 v);
      sample_loop model dataset length' inpt hidden res
  end.

Definition generate (model : GRU) (dataset : TweetDataset) (start : list N) (length : nat)
  : M (list N) :=
  do start <- lift (_encode_sequence dataset start);
  do start <- lift (_one_hot_sequence start (vocab_size dataset));
  let hidden := init_hidden model 1 in
  do hidden <- prime model start hidden;
  do inpt <- lift (item_last start);
  let res := [] in
  sample_loop model dataset length inpt hidden res.
End Generator.

(** ** The trainer *)

Definition BATCH_SIZE : nat := 32.
Definition N_EPOCHS : nat := 10.
Definition PRINT_EVERY : nat := 1.

(** [DataLoader(dataset, batch_size, drop_last=True)]: [len(dataset) //
    batch_size] full batches, in order. *)
Definition DataLoader {A} (dataset : list A) (batch_size : nat) : list (list A) :=
  (λ k, take batch_size (drop (k * batch_size) dataset)) <$> seq 0 (length dataset / batch_size).

(** The values [loss_avg] takes: the Python integer it starts as, and the
    zero-dimensional tensor it becomes after [loss_avg += loss].  Tensor
    scalars are idealised as rationals. *)
Inductive pynum : Type :=
| PyInt (z : Z)
| PyTensor (q : Q).

(** [loss_avg += loss] for a tensor [loss] *)
Definition iadd (loss_avg : pynum) (loss : Q) : pynum :=
  match loss_avg with
  | PyInt z => PyTensor (inject_Z z + loss)
  | PyTensor q => PyTensor (q + loss)
  end.

(** [loss_avg.item()]: only tensors have it. *)
Definition item (loss_avg : pynum) : result Q :=
  match loss_avg with
  | PyInt _ => Err AttributeError
  | PyTensor q => Ok q
  end.

Section Trainer.
(** The model with its optimiser, input and target batches, network
    outputs and hidden states. *)
Context {Net X Y Output Hid : Type}.

Variable net_init_hidden : Net → nat → Hid.
Variable net_call : Net → X → Hid → result (Output * Hid).
Variable loss_fn : Output → Y → result Q.
(** [loss.backward(); optimizer.step()] after [optimizer.zero_grad()] *)
Variable backprop : Net → X → Y → Net.

(** [for i, batch in enumerate(data): ...] *)
Fixpoint train_batches (model : Net) (loss_avg : pynum) (data : list (X * Y))
  : result (Net * pynum) :=
  match data with
  | [] => Ok (model, loss_avg)
  | (x, y) :: data' =>
      let hidden := net_init_hidden model BATCH_SIZE in
      try oh <- net_call model x hidden;
      try loss <- loss_fn oh.1 y;
      let loss_avg := iadd loss_avg loss in
      let model := backprop model x y in
      train_batches model loss_avg data'
  end.

(** One pass of the outer loop; the value is the new model and the line
    printed, if any. *)
Definition train_epoch (model : Net) (data : list (X * Y)) (epoch : nat)
  : result (Net * option (nat * Q)) :=
  let loss_avg := PyInt 0 in
  try ml <- train_batches model loss_avg data;
  try l <- item ml.2;
  let loss_avg := (l / inject_Z (Z.of_nat BATCH_SIZE))%Q in
  if decide (epoch mod PRINT_EVERY = 0)
  then Ok (ml.1, Some (epoch, loss_avg))
  else Ok (ml.1, None).

(** [for epoch in epochs: ...], with the lines printed so far; an
    exception keeps what was printed before it. *)
Fixpoint train_loop (model : Net) (data : list (X * Y)) (epochs : list nat)
    (stdout : list (nat * Q)) : list (nat * Q) * result Net :=
  match epochs with
  | [] => (stdout, Ok model)
  | epoch :: epochs' =>
      match train_epoch model data epoch with
      | Err e => (stdout, Err e)
      | Ok (model, line) =>
          train_loop model data epochs' (stdout ++ option_list line)
      end
  end.

Definition train (model : Net) (data : list (X * Y)) : list (nat * Q) * result Net :=
  train_loop model data (seq 1 N_EPOCHS) [].
End Trainer.

(** ** Specification-side vocabulary *)

(** [slice] right-padded with spaces to [n] characters. *)
Definition pad_to (n : nat) (sl : list N) : list N := sl ++ replicate (n - length sl) space.

(** The window pair of an [(L+1)]-slice: [input = slice[0..L)],
    [target = slice[1..L+1)]. *)
Definition window_of (L : nat) (sl : list N) : list N * list N :=
  (take L sl, take L (drop 1 sl)).

(** The padded slices of one sample. *)
Definition slices_of (L : nat) (tweet : list N) : list (list N) :=
  (λ k, pad_to (L + 1) (take (L + 1) (drop (k * S L) tweet))) <$> seq 0 ((length tweet + L) / S L).

(** Any enumeration of a set lists each element once. *)
Definition iteration_order (set_iter : gset N → list N) : Prop :=
  ∀ X, set_iter X ≡ₚ elements X.

(** What the constructor establishes about the vocabulary of a corpus. *)
Record Vocabulary (data : list (list N)) (ds : TweetDataset) : Prop := {
  vocab_sorted : StronglySorted N.lt (chars ds);
  vocab_elem : ∀ c, c ∈ chars ds ↔ ∃ tweet, tweet ∈ data ∧ c ∈ tweet;
  vocab_size_chars : vocab_size ds = length (chars ds);
  vocab_int2char : ∀ i c, int2char ds !! i = Some c ↔ chars ds !! i = Some c;
  vocab_char2int : ∀ c i, char2int ds !! c = Some i ↔ chars ds !! i = Some c
}.

(** ** Generator: what the specification describes *)

(** The vector with a single 1 at index [i]. *)
Definition one_hot_vec (V i : nat) : list nat := <[i := 1]> (replicate V 0).

(** The indices drawn, in order, among the events of a run. *)
Definition samples (evs : list event) : list nat :=
  omap (λ e, match e with EvSample top => Some top | EvForward _ => None end) evs.

Section GeneratorSpec.
Context {Num Hidden Params Rng : Type}.
Variable gru_fc : @GRU Params → list nat → Hidden → list Num * Hidden.
Variable zeros : nat → nat → nat → Hidden.
Variable softmax : list Num → list Num.
Variable multinomial : list Num → Rng → nat * Rng.

(** Shapes promised by torch: the linear layer emits [output_size] logits,
    softmax keeps the length, and a draw from a non-empty distribution is
    one of its indices. *)
Definition torch_shapes : Prop :=
  (∀ model x h, length (gru_fc model x h).1 = output_size model) ∧
  (∀ logits, length (softmax logits) = length logits) ∧
  (∀ dist g, dist ≠ [] → (multinomial dist g).1 < length dist).

(** Step 2: every seed vector goes through the model, one step at a time;
    the logits are discarded and the hidden state is kept. *)
Definition primed (model : GRU) (xs : list (list nat)) (hidden : Hidden) : Hidden :=
  foldl (λ h x, (gru_fc model x h).2) hidden xs.

(** Step 3, repeated [n] times from the current input [x]: one model step,
    softmax, one draw, decode the drawn index, re-encode the decoded
    character as the next input.  The value is the decoded characters, the
    final generator state and the events in order. *)
Fixpoint sampling (model : GRU) (dataset : TweetDataset) (n : nat) (x : list nat)
    (hidden : Hidden) (g : Rng) : list N * Rng * list event :=
  match n with
  | 0 => ([], g, [])
  | S n' =>
      let (logits, hidden') := gru_fc model x hidden in
      let dist := softmax logits in
      let (top, g') := multinomial dist g in
      let c := int2char dataset !!! top in
      let x' := one_hot_vec (vocab_size dataset) (char2int dataset !!! c) in
      let '(cs, g'', evs) := sampling model dataset n' x' hidden' g' in
      (c :: cs, g'', EvForward x :: EvSample top :: evs)
  end.

(** Steps 1 to 4 for a valid seed. *)
Definition generate_spec (model : GRU) (dataset : TweetDataset) (seed : list N) (n : nat)
    (w : @World Rng) : result (list N) * @World Rng :=
  let xs := (λ c, one_hot_vec (vocab_size dataset) (char2int dataset !!! c)) <$> seed in
  let hidden := primed model xs (zeros (n_layers model) 1 (hidden_size model)) in
  let x := default [] (last xs) in
  let '(cs, g, evs) := sampling model dataset n x hidden (rng w) in
  (Ok cs, mkWorld g (log w ++ (EvForward <$> xs) ++ evs)).
End GeneratorSpec.

(** ** A concrete corpus, model and sampler *)

Module Demo.
(** [hello] and [well] *)
Definition corpus : list (list N) := [[104; 101; 108; 108; 111]; [119; 101; 108; 108]]%N.

Definition dataset : TweetDataset :=
  match TweetDataset_init elements corpus 4 with
  | Ok ds => ds
  | Err _ => mkTweetDataset 0 [] [] 0 ∅ ∅ []
  end.

(** A network over naturals whose hidden state counts the steps taken and
    whose logits all equal the previous count; a sampler that walks through
    the indices. *)
Definition gru_fc (model : @GRU unit) (x : list nat) (h : nat) : list nat * nat :=
  (replicate (output_size model) h, S h).
Definition zeros (_ _ _ : nat) : nat := 0.
Definition softmax (logits : list nat) : list nat := logits.
Definition multinomial (dist : list nat) (g : nat) : nat * nat := (g mod length dist, S g).

Definition world0 : @World nat := mkWorld 3 [].
Definition model : @GRU unit := model_for dataset tt.
End Demo.

(** A trainer whose network is the count of optimiser steps taken and whose
    batches carry the loss they will produce. *)
Module DemoTrainer.
Definition net_init_hidden (_ : nat) (_ : nat) : unit := tt.
Definition net_call (_ : nat) (_ : unit) (_ : unit) : result (unit * unit) := Ok (tt, tt).
Definition loss_fn (_ : unit) (y : Q) : result Q := Ok y.
Definition backprop (model : nat) (_ : unit) (_ : Q) : nat := S model.

(** Two batches, with losses 1 and 3. *)
Definition data : list (unit * Q) := [(tt, 1%Q); (tt, 3%Q)].
End DemoTrainer.

(** The sum of the losses of the batches, as [loss_avg] accumulates it. *)
Definition accumulate (loss_avg : pynum) (losses : list Q) : pynum :=
  foldl iadd loss_avg losses.

(** ** Further operations of the notebook *)

(** [len(dataset)] *)
Definition TweetDataset_len (dataset : TweetDataset) : nat := length (sequences dataset).

(** The slice a window pair was cut from, for [L >= 1]: its input followed
    by the last character of its target. *)
Definition reassemble (L : nat) (w : list N * list N) : list N := w.1 ++ drop (L - 1) w.2.

(** Training with a network and a loss that accept every batch, described
    without exceptions. *)
Section TrainerSpec.
Context {Net X Y Output Hid : Type}.
Variable net_init_hidden : Net → nat → Hid.
Variable call : Net → X → Hid → Output * Hid.
Variable loss : Output → Y → Q.
Variable backprop : Net → X → Y → Net.

(** The loss of one batch under the weights [model], from a zero hidden
    state. *)
Definition batch_loss (model : Net) (b : X * Y) : Q :=
  loss (call model b.1 (net_init_hidden model BATCH_SIZE)).1 b.2.

(** One pass over the batches: each loss is computed before the optimiser
    step of its batch, and the next batch sees the updated weights. *)
Fixpoint epoch_pass (model : Net) (total : Q) (data : list (X * Y)) : Net * Q :=
  match data with
  | [] => (model, total)
  | b :: data' => epoch_pass (backprop model b.1 b.2) (total + batch_loss model b)%Q data'
  end.

(** The passes of the listed epochs, the weights being carried from one
    epoch to the next; each epoch contributes one line. *)
Fixpoint epochs_pass (model : Net) (data : list (X * Y)) (epochs : list nat)
  : list (nat * Q) * Net :=
  match epochs with
  | [] => ([], model)
  | epoch :: epochs' =>
      let (model', total) := epoch_pass model (inject_Z 0) data in
      let (lines, final) := epochs_pass model' data epochs' in
      ((epoch, (total / inject_Z (Z.of_nat BATCH_SIZE))%Q) :: lines, final)
  end.
End TrainerSpec.

(** A network that rejects the batches flagged [false]. *)
Module DemoReject.
Definition net_call (_ : nat) (x : bool) (_ : unit) : result (unit * unit) :=
  if x then Ok (tt, tt) else Err RuntimeError.
End DemoReject.

(** ** The training cell *)

Definition SEQ_LEN : nat := 32.

(** How a run of the cell that builds the dataset, the model and the
    optimiser and then trains comes to its end: an exception of the dataset
    constructor, an exception while the model and its optimiser are set up,
    or a call of [train], with what it printed and what it returned or
    raised. *)
Inductive outcome (Net : Type) : Type :=
| RaisedByDataset (e : exn)
| RaisedBySetup (e : exn)
| Trained (stdout : list (nat * Q)) (r : result Net).
Arguments RaisedByDataset {Net} e.
Arguments RaisedBySetup {Net} e.
Arguments Trained {Net} stdout r.

Section TrainingCell.
(** Module weights, the model with its optimiser, network outputs and
    hidden states. *)
Context {Params Net Output Hid : Type}.
Variable set_iter : gset N → list N.

(** torch: [nn.GRU(input_size, hidden_size, n_layers)] and
    [nn.Linear(hidden_size, output_size)] with their fresh weights, and
    [optim.Adam(model.parameters(), ...)]; each returns or raises as torch
    decides. *)
Variable nn_modules : nat → nat → nat → nat → result Params.
Variable optim_Adam : @GRU Params → result Net.

(** A batch is the list of the indices of its items.  [net_call] reads the
    inputs of these items from the dataset, stacks them and runs the model;
    [loss_fn] reads their targets. *)
Variable net_init_hidden : Net → nat → Hid.
Variable net_call : TweetDataset → Net → list nat → Hid → result (Output * Hid).
Variable loss_fn : TweetDataset → Output → list nat → result Q.
Variable backprop : TweetDataset → Net → list nat → list nat → Net.

(** [GRU(input_size, hidden_size, output_size, n_layers)] *)
Definition GRU_init (input_size hidden_size output_size n_layers : nat) : result GRU :=
  try w <- nn_modules input_size hidden_size output_size n_layers;
  Ok (mkGRU input_size hidden_size output_size n_layers w).

(** The cell from [dataset = TweetDataset('./trump.csv', SEQ_LEN)] to
    [train(model, optimizer, loss_fn, dataloader)], on the tweet column
    [data]. *)
Definition training_cell (data : list (list N)) : outcome Net :=
  match TweetDataset_init set_iter data SEQ_LEN with
  | Err e => RaisedByDataset e
  | Ok dataset =>
      let dataloader := DataLoader (seq 0 (TweetDataset_len dataset)) BATCH_SIZE in
      let input_size := vocab_size dataset in
      match (try model <- GRU_init input_size HIDDEN_SIZE input_size N_LAYERS;
             optim_Adam model) with
      | Err e => RaisedBySetup e
      | Ok net =>
          let (stdout, r) :=
            train net_init_hidden (net_call dataset) (loss_fn dataset) (backprop dataset)
              net ((λ idxs, (idxs, idxs)) <$> dataloader) in
          Trained stdout r
      end
  end.
End TrainingCell.

(** A torch that accepts every size, with a network that counts optimiser
    steps. *)
Module DemoCell.
Definition nn_modules (_ _ _ _ : nat) : result unit := Ok tt.
Definition optim_Adam (_ : @GRU unit) : result nat := Ok 0.
Definition net_init_hidden (_ : nat) (_ : nat) : unit := tt.
Definition net_call (_ : TweetDataset) (_ : nat) (_ : list nat) (_ : unit)
  : result (unit * unit) := Ok (tt, tt).
Definition loss_fn (_ : TweetDataset) (_ : unit) (_ : list nat) : result Q := Ok 1%Q.
Definition backprop (_ : TweetDataset) (net : nat) (_ _ : list nat) : nat := S net.
End DemoCell.

(** * Properties *)

(** ** The error monad *)

Lemma for_each_total {A B} (f : A → result B) (g : A → B) (l : list A) :
  Forall (λ x, f x = Ok (g x)) l → Res.for_each f l = Ok (g <$> l).
Proof.
  induction 1 as [|x l Hx _ IH]; simpl; [done|].
  by rewrite Hx, IH.
Qed.

Lemma for_each_length {A B} (f : A → result B) (l : list A) (r : list B) :
  Res.for_each f l = Ok r → length r = length l.
Proof.
  revert r. induction l as [|x l IH]; intros r; simpl.
  - by intros [= <-].
  - destruct (f x); simpl; [|done].
    destruct (Res.for_each f l) as [ys|]; simpl; [|done].
    intros [= <-]. simpl. f_equal. by apply IH.
Qed.

Lemma for_each_fmap {A B C} (f : B → result C) (g : A → B) (l : list A) :
  Res.for_each f (g <$> l) = Res.for_each (f ∘ g) l.
Proof. induction l as [|x l IH]; csimpl; [done|]. by rewrite IH. Qed.

(** The first element on which the body raises decides the exception. *)
Lemma for_each_first_error {A B} (f : A → result B) (l1 l2 : list A) (x : A) (e : exn) :
  Forall (λ y, ∃ b, f y = Ok b) l1 → f x = Err e →
  Res.for_each f (l1 ++ x :: l2) = Err e.
Proof.
  intros Hl1 Hx. induction Hl1 as [|y l1 [b Hb] _ IH]; simpl.
  - by rewrite Hx.
  - by rewrite Hb, IH.
Qed.

(** ** Sequence windower *)

Lemma py_range_0 (n step : nat) :
  py_range 0 n (S step) = (λ k, k * S step) <$> seq 0 ((n + step) / S step).
Proof.
  unfold py_range. replace (n - 0 + S step - 1) with (n + step) by lia. done.
Qed.

Lemma padded_slice_ok (L : nat) (tweet : list N) (i : nat) :
  padded_slice L tweet i = Ok (pad_to (L + 1) (take (L + 1) (drop i tweet))).
Proof.
  unfold padded_slice, slice, pad_to.
  replace (i + L + 1 - i) with (L + 1) by lia.
  set (sl := take (L + 1) (drop i tweet)).
  assert (length sl ≤ L + 1) by (subst sl; rewrite length_take; lia).
  destruct (decide (length sl < L + 1)) as [Hlt|Hge].
  - rewrite decide_True; [done|]. rewrite length_app, length_replicate. lia.
  - rewrite decide_True by lia.
    replace (L + 1 - length sl) with 0 by lia. simpl. by rewrite app_nil_r.
Qed.

Lemma pad_to_length (n : nat) (sl : list N) : length sl ≤ n → length (pad_to n sl) = n.
Proof. intros. unfold pad_to. rewrite length_app, length_replicate. lia. Qed.

Lemma slices_of_length (L : nat) (tweet : list N) :
  Forall (λ sl, length sl = L + 1) (slices_of L tweet).
Proof.
  unfold slices_of. apply Forall_fmap, Forall_forall. intros k _. simpl.
  apply pad_to_length. rewrite length_take. lia.
Qed.

Lemma chunks_concat (L m : nat) (tweet : list N) :
  m = (length tweet + L) / S L →
  concat ((λ k, pad_to (L + 1) (take (L + 1) (drop (k * S L) tweet))) <$> seq 0 m)
  = tweet ++ replicate (m * S L - length tweet) space.
Proof.
  revert tweet. induction m as [|m IH]; intros tweet Hm.
  - assert (length tweet = 0) as Hn.
    { destruct (decide (length tweet = 0)) as [|Hne]; [done|].
      assert (1 ≤ (length tweet + L) / S L); [|lia].
      apply Nat.div_le_lower_bound; lia. }
    destruct tweet; [done|discriminate].
  - rewrite <- cons_seq, <- fmap_S_seq. simpl.
    rewrite <- list_fmap_compose.
    rewrite (list_fmap_ext _ (λ k, pad_to (L + 1) (take (L + 1) (drop (k * S L) (drop (S L) tweet))))).
    2:{ intros ? k _. simpl. by rewrite drop_drop. }
    destruct (decide (S L ≤ length tweet)) as [Hle|Hlt].
    + rewrite IH.
      2:{ rewrite length_drop.
          replace (length tweet + L) with (length tweet - S L + L + 1 * S L) in Hm by lia.
          rewrite Nat.div_add in Hm by lia. lia. }
      rewrite drop_0, length_drop. unfold pad_to. rewrite length_take.
      replace (L + 1 - (L + 1) `min` length tweet) with 0 by lia.
      replace (L + 1) with (S L) by lia.
      rewrite app_nil_r, app_assoc, take_drop.
      do 2 f_equal.
      pose proof (Nat.div_mod_eq (length tweet + L) (S L)) as Hdm.
      pose proof (Nat.mod_upper_bound (length tweet + L) (S L)).
      rewrite <- Hm in Hdm. lia.
    + assert (m = 0) as ->.
      { assert ((length tweet + L) / S L < 2); [|lia].
        apply Nat.Div0.div_lt_upper_bound; lia. }
      simpl. rewrite app_nil_r, drop_0, take_ge by lia.
      unfold pad_to. do 2 f_equal. lia.
Qed.

Lemma slices_of_concat (L : nat) (tweet : list N) :
  ∃ pad, pad < L + 1 ∧ concat (slices_of L tweet) = tweet ++ replicate pad space.
Proof.
  exists ((length tweet + L) / S L * S L - length tweet). split.
  - pose proof (Nat.div_mod_eq (length tweet + L) (S L)).
    pose proof (Nat.mod_upper_bound (length tweet + L) (S L)). lia.
  - by apply chunks_concat.
Qed.

Lemma split_window (L : nat) (sl : list N) :
  length sl = L + 1 → (but_last sl, from_1 sl) = window_of L sl.
Proof.
  intros Hlen. unfold but_last, from_1, window_of. rewrite Hlen.
  replace (L + 1 - 1) with L by lia. f_equal.
  rewrite take_ge; [done|]. rewrite length_drop. lia.
Qed.

Lemma zip_windows (L : nat) (sls : list (list N)) :
  Forall (λ sl, length sl = L + 1) sls →
  zip (but_last <$> sls) (from_1 <$> sls) = window_of L <$> sls.
Proof.
  induction 1 as [|sl sls Hsl _ IH]; csimpl; [done|].
  by rewrite IH, <- split_window.
Qed.

Lemma create_sequences_slices (data : list (list N)) (L : nat) :
  _create_sequences data L = Ok (window_of L <$> concat (slices_of L <$> data)).
Proof.
  unfold _create_sequences.
  rewrite (for_each_total _ (slices_of L)).
  2:{ apply Forall_forall. intros tweet _. replace (L + 1) with (S L) by lia.
      rewrite py_range_0, for_each_fmap. unfold slices_of.
      apply for_each_total, Forall_forall. intros i _. simpl.
      rewrite padded_slice_ok. by replace (S L) with (L + 1) by lia. }
  simpl. f_equal. apply zip_windows.
  apply Forall_concat, Forall_fmap, Forall_forall. intros tweet _. apply slices_of_length.
Qed.

Lemma window_of_shape (L : nat) (sl : list N) :
  length sl = L + 1 →
  length (window_of L sl).1 = L ∧ length (window_of L sl).2 = L ∧
  ∀ j, j + 1 < L → (window_of L sl).2 !! j = (window_of L sl).1 !! (j + 1).
Proof.
  intros Hlen. unfold window_of. simpl.
  rewrite !length_take, length_drop. repeat split; [lia..|].
  intros j Hj. rewrite !lookup_take_lt, lookup_drop by lia.
  f_equal. lia.
Qed.

(** C1. The windower cuts every sample into consecutive, non-overlapping
    slices of [L+1] characters (their concatenation is the sample followed by
    fewer than [L+1] padding spaces), never trips its assertion, and emits for
    each slice the pair [(slice[0..L), slice[1..L+1))], in sample order; so
    every emitted pair has input and target of length [L], the target being
    the input shifted by one position. *)
Theorem create_sequences_windows (data : list (list N)) (L : nat) :
  ∃ (slices : list (list (list N))) (windows : list (list N * list N)),
    _create_sequences data L = Ok windows ∧
    windows = window_of L <$> concat slices ∧
    Forall2 (λ tweet sls,
        Forall (λ sl, length sl = L + 1) sls ∧
        ∃ pad, pad < L + 1 ∧ concat sls = tweet ++ replicate pad space)
      data slices ∧
    Forall (λ w : list N * list N,
        length w.1 = L ∧ length w.2 = L ∧
        ∀ j, j + 1 < L → w.2 !! j = w.1 !! (j + 1))
      windows.
Proof.
  exists (slices_of L <$> data), (window_of L <$> concat (slices_of L <$> data)).
  split; [apply create_sequences_slices|]. split; [done|]. split.
  - apply Forall2_fmap_r, Forall_Forall2_diag, Forall_forall. intros tweet _.
    split; [apply slices_of_length | apply slices_of_concat].
  - apply Forall_fmap, Forall_concat, Forall_fmap, Forall_forall. intros tweet _.
    eapply Forall_impl; [apply slices_of_length|].
    intros sl Hsl. by apply window_of_shape.
Qed.

(** The two samples of the end-to-end scenario, [hello] and [well], with
    window length 4. *)
Example create_sequences_hello_well :
  _create_sequences [[104; 101; 108; 108; 111]; [119; 101; 108; 108]]%N 4
  = Ok [([104; 101; 108; 108], [101; 108; 108; 111]);
        ([119; 101; 108; 108], [101; 108; 108; 32])]%N.
Proof. reflexivity. Qed.

(** C5 as stated fails: the empty sample is shorter than [L+1] and yields no
    window at all, because [range(0, 0, L+1)] is empty. *)
Lemma empty_sample_no_window :
  length ([] : list N) < 4 + 1 ∧
  _create_sequences [[]] 4 = Ok [] ∧
  ¬ ∃ w, _create_sequences [[]] 4 = Ok [w].
Proof.
  split; [simpl; lia|]. split; [reflexivity|].
  intros [w Hw]. vm_compute in Hw. discriminate.
Qed.

(** C5, amended. A non-empty sample shorter than [L+1] characters yields
    exactly one window pair, cut from the sample right-padded with spaces to
    [L+1] characters. *)
Theorem short_sample_one_window (tweet : list N) (L : nat) :
  tweet ≠ [] → length tweet < L + 1 →
  _create_sequences [tweet] L
  = Ok [window_of L (tweet ++ replicate (L + 1 - length tweet) space)].
Proof.
  intros Hne Hlt. rewrite create_sequences_slices. do 2 f_equal. simpl.
  rewrite app_nil_r. unfold slices_of.
  assert (0 < length tweet) by (destruct tweet; [done|simpl; lia]).
  replace ((length tweet + L) / S L) with 1.
  2:{ apply Nat.div_unique with (length tweet - 1); lia. }
  simpl. rewrite drop_0, take_ge by lia. done.
Qed.

Lemma short_sample_one_window_witness :
  _create_sequences [[119; 101; 108; 108]%N] 4
  = Ok [window_of 4 ([119; 101; 108; 108]%N ++ replicate (4 + 1 - 4) space)].
Proof. apply (short_sample_one_window [119; 101; 108; 108]%N 4); [done | simpl; lia]. Defined.

(** ** Dictionaries *)

Section dict.
Context `{Countable K} {V : Type}.
Implicit Types (items : list (K * V)) (m : gmap K V).

Lemma foldl_insert_fresh items m k :
  k ∉ items.*1 → foldl (λ m kv, <[kv.1 := kv.2]> m) m items !! k = m !! k.
Proof.
  revert m. induction items as [|[k' v'] items IH]; intros m Hk; simpl in *; [done|].
  apply not_elem_of_cons in Hk as [Hne Hk].
  rewrite IH by done. by rewrite lookup_insert_ne.
Qed.

Lemma foldl_insert_elem items m k v :
  NoDup items.*1 → (k, v) ∈ items →
  foldl (λ m kv, <[kv.1 := kv.2]> m) m items !! k = Some v.
Proof.
  revert m. induction items as [|[k' v'] items IH]; intros m Hnd Hin; simpl in *.
  - by apply elem_of_nil in Hin.
  - apply NoDup_cons in Hnd as [Hfresh Hnd].
    apply elem_of_cons in Hin as [[= <- <-]|Hin].
    + rewrite foldl_insert_fresh by done. apply lookup_insert_eq.
    + by apply IH.
Qed.

Lemma dict_lookup items k v :
  NoDup items.*1 → dict items !! k = Some v ↔ (k, v) ∈ items.
Proof.
  intros Hnd. unfold dict. split.
  - intros Hlk. destruct (decide (k ∈ items.*1)) as [Hin|Hnin].
    + apply list_elem_of_fmap in Hin as [[k' v'] [-> Hin]]. simpl in *.
      rewrite (foldl_insert_elem _ _ _ _ Hnd Hin) in Hlk. by injection Hlk as ->.
    + rewrite foldl_insert_fresh in Hlk by done. by rewrite lookup_empty in Hlk.
  - by apply foldl_insert_elem.
Qed.
End dict.

Lemma enumerate_elem {A} (l : list A) (i : nat) (x : A) :
  (i, x) ∈ enumerate l ↔ l !! i = Some x.
Proof.
  unfold enumerate. split.
  - intros (j & y & [= -> ->] & Hlk)%elem_of_lookup_imap_1. done.
  - apply (elem_of_lookup_imap_2 pair).
Qed.

Lemma enumerate_keys {A} (l : list A) : (enumerate l).*1 = seq 0 (length l).
Proof.
  unfold enumerate. rewrite fmap_imap.
  rewrite (imap_ext _ (λ j _, j)) by done.
  by rewrite imap_seq_0, list_fmap_id.
Qed.

Lemma enumerate_values {A} (l : list A) :
  ((λ ic : nat * A, (ic.2, ic.1)) <$> enumerate l).*1 = l.
Proof.
  unfold enumerate. rewrite <- list_fmap_compose, fmap_imap.
  rewrite (imap_ext _ (const id)) by done.
  by rewrite imap_const, list_fmap_id.
Qed.

(** ** Vocabulary builder *)

Lemma corpus_chars_fold (data : list (list N)) (X : gset N) (c : N) :
  c ∈ foldl (λ chars tweet, foldl (λ chars char, {[char]} ∪ chars) chars tweet) X data
  ↔ c ∈ X ∨ ∃ tweet, tweet ∈ data ∧ c ∈ tweet.
Proof.
  assert (∀ (tweet : list N) (Y : gset N),
    c ∈ foldl (λ chars char, {[char]} ∪ chars) Y tweet ↔ c ∈ Y ∨ c ∈ tweet) as Hin.
  { induction tweet as [|c' tweet IH]; intros Y; simpl.
    - rewrite elem_of_nil. tauto.
    - rewrite IH, elem_of_cons, elem_of_union, elem_of_singleton. tauto. }
  revert X. induction data as [|tweet data IH]; intros X; simpl.
  - split; [auto|]. intros [?|(? & []%elem_of_nil & _)]. done.
  - rewrite IH, Hin. split.
    + intros [[?|?]|(t & ? & ?)]; [by left|right..].
      * exists tweet. split; [left|done].
      * exists t. split; [by right|done].
    + intros [?|(t & [->|?]%elem_of_cons & ?)]; [by left; left|by left; right|].
      right. by exists t.
Qed.

Lemma StronglySorted_le_lt (l : list N) :
  StronglySorted N.le l → NoDup l → StronglySorted N.lt l.
Proof.
  induction 1 as [|x l Hl IH Hx]; intros Hnd; [constructor|].
  apply NoDup_cons in Hnd as [Hfresh Hnd]. constructor; [by apply IH|].
  rewrite Forall_forall in Hx. apply Forall_forall. intros y Hy.
  assert (x ≠ y) by (by intros ->). specialize (Hx y Hy). lia.
Qed.

Lemma StronglySorted_lt_NoDup (l : list N) : StronglySorted N.lt l → NoDup l.
Proof.
  induction 1 as [|x l Hl IH Hx]; [constructor|].
  apply NoDup_cons. split; [|done].
  intros Hin. rewrite Forall_forall in Hx. specialize (Hx x Hin). lia.
Qed.

Section unique_chars.
Variable set_iter : gset N → list N.
Hypothesis set_iter_order : iteration_order set_iter.

Lemma get_unique_chars_elem (data : list (list N)) (c : N) :
  c ∈ _get_unique_chars set_iter data ↔ ∃ tweet, tweet ∈ data ∧ c ∈ tweet.
Proof.
  unfold _get_unique_chars. cbv zeta.
  rewrite merge_sort_Permutation, (set_iter_order _), elem_of_elements, corpus_chars_fold.
  rewrite elem_of_empty. tauto.
Qed.

Lemma get_unique_chars_sorted (data : list (list N)) :
  StronglySorted N.lt (_get_unique_chars set_iter data).
Proof.
  apply StronglySorted_le_lt.
  - apply StronglySorted_merge_sort; apply _.
  - unfold _get_unique_chars. cbv zeta.
    rewrite merge_sort_Permutation, (set_iter_order _). apply NoDup_elements.
Qed.
End unique_chars.

(** The sorted list does not depend on the order in which the set is
    enumerated. *)
Lemma get_unique_chars_order_irrelevant (it1 it2 : gset N → list N) (data : list (list N)) :
  iteration_order it1 → iteration_order it2 →
  _get_unique_chars it1 data = _get_unique_chars it2 data.
Proof.
  intros H1 H2. apply (StronglySorted_unique N.le).
  - apply StronglySorted_merge_sort; apply _.
  - apply StronglySorted_merge_sort; apply _.
  - unfold _get_unique_chars. cbv zeta. by rewrite !merge_sort_Permutation, (H1 _), (H2 _).
Qed.

Lemma TweetDataset_init_eq (set_iter : gset N → list N) (data : list (list N)) (L : nat) :
  TweetDataset_init set_iter data L =
  Ok (let chars := _get_unique_chars set_iter data in
      mkTweetDataset L data chars (length chars)
        (dict (enumerate chars))
        (dict ((λ ic : nat * N, (ic.2, ic.1)) <$> enumerate chars))
        (window_of L <$> concat (slices_of L <$> data))).
Proof. unfold TweetDataset_init. by rewrite create_sequences_slices. Qed.

Lemma TweetDataset_init_Vocabulary (set_iter : gset N → list N) (data : list (list N))
    (L : nat) (ds : TweetDataset) :
  iteration_order set_iter → TweetDataset_init set_iter data L = Ok ds → Vocabulary data ds.
Proof.
  intros Hit. rewrite TweetDataset_init_eq. intros [= <-].
  pose proof (get_unique_chars_sorted _ Hit data) as Hsorted.
  split; simpl.
  - done.
  - by apply get_unique_chars_elem.
  - done.
  - intros i c. rewrite dict_lookup, enumerate_elem; [done|].
    rewrite enumerate_keys. apply NoDup_seq.
  - intros c i. rewrite dict_lookup.
    + rewrite list_elem_of_fmap. split.
      * intros ([j d] & [= -> ->] & Hin). by apply enumerate_elem.
      * intros Hlk. exists (i, c). split; [done|]. by apply enumerate_elem.
    + rewrite enumerate_values. by apply StronglySorted_lt_NoDup.
Qed.

Lemma Vocabulary_index_lt (data : list (list N)) (ds : TweetDataset) (i : nat) (c : N) :
  Vocabulary data ds → chars ds !! i = Some c → i < vocab_size ds.
Proof. intros Hv Hlk. rewrite (vocab_size_chars _ _ Hv). by eapply lookup_lt_Some. Qed.

Lemma StronglySorted_lookup_lt (l : list N) (i j : nat) (c d : N) :
  StronglySorted N.lt l → i < j → l !! i = Some c → l !! j = Some d → (c < d)%N.
Proof.
  intros Hs. revert i j. induction Hs as [|x l Hl IH Hx]; intros i j Hij Hi Hj; [done|].
  destruct j as [|j]; [lia|]. simpl in Hj. destruct i as [|i]; simpl in Hi.
  - injection Hi as ->. rewrite Forall_forall in Hx. apply Hx.
    by eapply list_elem_of_lookup_2.
  - apply (IH i j); [lia|done..].
Qed.

(** C6. Whatever order the character set is enumerated in, the constructor
    succeeds and builds the same dataset; its [chars] list is strictly
    increasing and holds exactly the characters occurring in the corpus;
    [int2char] is defined exactly on [0 .. vocab_size-1], where it reads
    [chars], so indices follow character order; [char2int] is defined exactly
    on the corpus characters; and the two mappings are inverse to each
    other. *)
Theorem vocabulary_bijection (it1 it2 : gset N → list N) (data : list (list N)) (L : nat) :
  iteration_order it1 → iteration_order it2 →
  ∃ ds,
    TweetDataset_init it1 data L = Ok ds ∧
    TweetDataset_init it2 data L = Ok ds ∧
    StronglySorted N.lt (chars ds) ∧
    (∀ c, c ∈ chars ds ↔ ∃ tweet, tweet ∈ data ∧ c ∈ tweet) ∧
    (∀ i c, int2char ds !! i = Some c ↔ char2int ds !! c = Some i) ∧
    (∀ i, i < vocab_size ds ↔ is_Some (int2char ds !! i)) ∧
    (∀ c, (∃ tweet, tweet ∈ data ∧ c ∈ tweet) ↔ is_Some (char2int ds !! c)) ∧
    (∀ i c, int2char ds !! i = Some c ↔ chars ds !! i = Some c) ∧
    (∀ i j c d, i < j → int2char ds !! i = Some c → int2char ds !! j = Some d → (c < d)%N).
Proof.
  intros H1 H2.
  destruct (TweetDataset_init it1 data L) as [ds|] eqn:Hinit.
  2:{ by rewrite TweetDataset_init_eq in Hinit. }
  pose proof (TweetDataset_init_Vocabulary _ _ _ _ H1 Hinit) as Hv.
  exists ds. split; [done|]. split.
  { rewrite <- Hinit, !TweetDataset_init_eq.
    by rewrite (get_unique_chars_order_irrelevant it1 it2). }
  destruct Hv as [Hsorted Helem Hsize Hi2c Hc2i].
  repeat split; try done.
  - by apply Helem.
  - by apply Helem.
  - intros ?. by apply Hc2i, Hi2c.
  - intros ?. by apply Hi2c, Hc2i.
  - intros Hlt. rewrite Hsize in Hlt. apply lookup_lt_is_Some_2 in Hlt as [c Hc].
    exists c. by apply Hi2c.
  - intros [c Hc]. rewrite Hsize. eapply lookup_lt_Some. by apply Hi2c.
  - intros Hin. apply Helem, list_elem_of_lookup in Hin as [i Hi].
    exists i. by apply Hc2i.
  - intros [i Hi]. apply Helem, list_elem_of_lookup. exists i. by apply Hc2i.
  - by apply Hi2c.
  - by apply Hi2c.
  - intros i j c d Hij Hi Hj. apply Hi2c in Hi, Hj.
    by eapply StronglySorted_lookup_lt.
Qed.

(** ** Encoder *)

Lemma encode_known (data : list (list N)) (ds : TweetDataset) (s : list N) :
  Vocabulary data ds → Forall (λ c, c ∈ chars ds) s →
  ∃ idxs, _encode_sequence ds s = Ok idxs ∧ decode_sequence ds idxs = Ok s ∧
          Forall (λ i, i < vocab_size ds) idxs.
Proof.
  intros Hv. induction 1 as [|c s Hc _ (idxs & Henc & Hdec & Hlt)].
  - by exists [].
  - apply list_elem_of_lookup in Hc as [i Hi]. exists (i :: idxs).
    unfold _encode_sequence, decode_sequence in *. simpl.
    unfold char2int_get at 1, int2char_get at 1.
    rewrite (proj2 (vocab_char2int _ _ Hv c i) Hi), (proj2 (vocab_int2char _ _ Hv i c) Hi).
    simpl. rewrite Henc, Hdec. simpl. repeat split; [done..|].
    constructor; [|done]. by eapply Vocabulary_index_lt.
Qed.

Lemma encode_unknown (data : list (list N)) (ds : TweetDataset) (seq : list N) :
  Vocabulary data ds → (∃ c, c ∈ seq ∧ c ∉ chars ds) →
  ∃ c, c ∈ seq ∧ (c ∉ chars ds) ∧ _encode_sequence ds seq = Err (KeyError c).
Proof.
  intros Hv. unfold _encode_sequence.
  induction seq as [|c0 seq IH]; intros (c & Hin & Hc).
  - by apply elem_of_nil in Hin.
  - simpl. unfold char2int_get at 1.
    destruct (char2int ds !! c0) as [i|] eqn:Hlk; simpl.
    + apply (vocab_char2int _ _ Hv) in Hlk.
      apply elem_of_cons in Hin as [->|Hin].
      { exfalso. apply Hc. by eapply list_elem_of_lookup_2. }
      destruct IH as (c' & Hin' & Hc' & ->); [by (exists c)|].
      exists c'. split; [by right|done].
    + exists c0. split; [by left|]. split; [|done].
      intros [i Hi]%list_elem_of_lookup.
      apply (vocab_char2int _ _ Hv) in Hi. congruence.
Qed.

(** ** Generator *)

Lemma one_hot_vec_length (V i : nat) : length (one_hot_vec V i) = V.
Proof. unfold one_hot_vec. by rewrite length_insert, length_replicate. Qed.

Lemma one_hot_ok (V i : nat) : i < V → one_hot V i = Ok (one_hot_vec V i).
Proof. intros. unfold one_hot. rewrite length_replicate. by rewrite decide_True. Qed.

Lemma one_hot_out_of_range (V i : nat) : V ≤ i → one_hot V i = Err IndexError.
Proof. intros. unfold one_hot. rewrite length_replicate. rewrite decide_False; [done|lia]. Qed.

Lemma one_hot_sequence_ok (V : nat) (idxs : list nat) :
  Forall (λ i, i < V) idxs → _one_hot_sequence idxs V = Ok (one_hot_vec V <$> idxs).
Proof.
  intros Hlt. apply for_each_total. eapply Forall_impl; [done|].
  intros i Hi. by apply one_hot_ok.
Qed.

Lemma char2int_known (data : list (list N)) (ds : TweetDataset) (c : N) :
  Vocabulary data ds → c ∈ chars ds →
  char2int_get ds c = Ok (char2int ds !!! c) ∧ char2int ds !!! c < vocab_size ds.
Proof.
  intros Hv [i Hi]%list_elem_of_lookup.
  pose proof (proj2 (vocab_char2int _ _ Hv c i) Hi) as Hlk.
  unfold char2int_get. rewrite (lookup_total_correct _ _ _ Hlk), Hlk.
  split; [done|]. by eapply Vocabulary_index_lt.
Qed.

Lemma int2char_known (data : list (list N)) (ds : TweetDataset) (top : nat) :
  Vocabulary data ds → top < vocab_size ds →
  int2char_get ds top = Ok (int2char ds !!! top) ∧
  int2char ds !!! top ∈ chars ds ∧
  char2int ds !!! (int2char ds !!! top) = top.
Proof.
  intros Hv Hlt. rewrite (vocab_size_chars _ _ Hv) in Hlt.
  apply lookup_lt_is_Some_2 in Hlt as [c Hc].
  pose proof (proj2 (vocab_int2char _ _ Hv top c) Hc) as Hlk.
  pose proof (proj2 (vocab_char2int _ _ Hv c top) Hc) as Hlk'.
  unfold int2char_get. rewrite (lookup_total_correct _ _ _ Hlk), Hlk.
  rewrite (lookup_total_correct _ _ _ Hlk').
  repeat split. by eapply list_elem_of_lookup_2.
Qed.

Lemma encode_sequence_known (data : list (list N)) (ds : TweetDataset) (s : list N) :
  Vocabulary data ds → Forall (λ c, c ∈ chars ds) s →
  _encode_sequence ds s = Ok ((λ c, char2int ds !!! c) <$> s) ∧
  Forall (λ i, i < vocab_size ds) ((λ c, char2int ds !!! c) <$> s).
Proof.
  intros Hv Hs. split.
  - apply for_each_total. eapply Forall_impl; [done|].
    intros c Hc. by apply (char2int_known data).
  - apply Forall_fmap. eapply Forall_impl; [done|].
    intros c Hc. by apply (char2int_known data).
Qed.

Section generator_runs.
Context {Num Hidden Params Rng : Type}.
Variable gru_fc : @GRU Params → list nat → Hidden → list Num * Hidden.
Variable zeros : nat → nat → nat → Hidden.
Variable softmax : list Num → list Num.
Variable multinomial : list Num → Rng → nat * Rng.
Hypothesis shapes : torch_shapes gru_fc softmax multinomial.

Variable data : list (list N).
Variable ds : TweetDataset.
Variable model : @GRU Params.
Hypothesis Hvocab : Vocabulary data ds.
Hypothesis Hnonempty : 0 < vocab_size ds.
Hypothesis Hin : input_size model = vocab_size ds.
Hypothesis Hout : output_size model = vocab_size ds.

Lemma forward_run (x : list nat) (h : Hidden) (w : @World Rng) :
  length x = vocab_size ds →
  forward gru_fc model x h w = (Ok (gru_fc model x h), emit (EvForward x) w).
Proof. intros Hx. unfold forward. rewrite decide_True; [done|congruence]. Qed.

Lemma multinomial_1_run (logits : list Num) (w : @World Rng) :
  length logits = vocab_size ds →
  multinomial_1 multinomial (softmax logits) w
  = (Ok (multinomial (softmax logits) (rng w)).1,
     mkWorld (multinomial (softmax logits) (rng w)).2
             (log w ++ [EvSample (multinomial (softmax logits) (rng w)).1])) ∧
  (multinomial (softmax logits) (rng w)).1 < vocab_size ds.
Proof.
  intros Hlen. destruct shapes as (_ & Hsm & Hmn).
  assert (length (softmax logits) = vocab_size ds) as Hd by (by rewrite Hsm).
  split.
  - unfold multinomial_1. destruct (softmax logits) as [|p dist] eqn:Hdist.
    { simpl in Hd. lia. }
    by destruct (multinomial (p :: dist) (rng w)).
  - rewrite <- Hd. apply Hmn. intros Heq. rewrite Heq in Hd. simpl in Hd. lia.
Qed.

Lemma prime_run (xs : list (list nat)) (h : Hidden) (w : @World Rng) :
  Forall (λ x, length x = vocab_size ds) xs →
  prime gru_fc model xs h w
  = (Ok (primed gru_fc model xs h), mkWorld (rng w) (log w ++ (EvForward <$> xs))).
Proof.
  intros Hxs. revert h w. induction Hxs as [|x xs Hx _ IH]; intros h w; simpl.
  - unfold ret. rewrite app_nil_r. by destruct w.
  - unfold bind. rewrite forward_run by done. rewrite IH. simpl.
    by rewrite <- app_assoc.
Qed.

Lemma sample_loop_run (n : nat) (x : list nat) (h : Hidden) (res : list N) (w : @World Rng) :
  length x = vocab_size ds →
  sample_loop gru_fc softmax multinomial model ds n x h res w
  = (Ok (res ++ (sampling gru_fc softmax multinomial model ds n x h (rng w)).1.1),
     mkWorld (sampling gru_fc softmax multinomial model ds n x h (rng w)).1.2
             (log w ++ (sampling gru_fc softmax multinomial model ds n x h (rng w)).2)).
Proof.
  revert x h res w. induction n as [|n IH]; intros x h res w Hx; simpl.
  - unfold ret. rewrite !app_nil_r. by destruct w.
  - unfold bind at 1. rewrite forward_run by done.
    pose proof (proj1 shapes model x h) as Hlogits. rewrite Hout in Hlogits.
    destruct (gru_fc model x h) as [logits h'] eqn:Hstep. simpl in Hlogits |- *.
    unfold bind at 1.
    destruct (multinomial_1_run logits (emit (EvForward x) w) Hlogits) as [-> Htop].
    simpl in Htop |- *.
    destruct (multinomial (softmax logits) (rng w)) as [top g'] eqn:Hdraw.
    simpl in Htop |- *.
    destruct (int2char_known data ds top Hvocab Htop) as (Hdec & Hc & Henc).
    unfold bind at 1, lift at 1. rewrite Hdec.
    destruct (encode_sequence_known data ds [int2char ds !!! top] Hvocab) as [Hget _].
    { by constructor. }
    unfold bind at 1, lift at 1. rewrite Hget. csimpl.
    unfold bind at 1, lift at 1. rewrite Henc.
    rewrite (one_hot_sequence_ok _ [top]) by (by constructor). csimpl.
    rewrite IH by apply one_hot_vec_length. simpl.
    destruct (sampling _ _ _ _ _ _ _ _ _) as [[cs g''] evs]. simpl.
    by rewrite <- !app_assoc.
Qed.

Lemma sampling_props (n : nat) (x : list nat) (h : Hidden) (g : Rng) :
  let r := sampling gru_fc softmax multinomial model ds n x h g in
  length r.1.1 = n ∧
  Forall (λ c, c ∈ chars ds) r.1.1 ∧
  Forall (λ top, top < vocab_size ds) (samples r.2) ∧
  r.1.1 = (λ top, int2char ds !!! top) <$> samples r.2.
Proof using shapes Hvocab Hnonempty Hout.
  clear Hin. revert x h g. induction n as [|n IH]; intros x h g; simpl.
  - repeat split; constructor.
  - pose proof (proj1 shapes model x h) as Hlogits. rewrite Hout in Hlogits.
    destruct (gru_fc model x h) as [logits h'] eqn:Hstep. simpl in Hlogits.
    assert ((multinomial (softmax logits) g).1 < vocab_size ds) as Htop.
    { destruct shapes as (_ & Hsm & Hmn).
      rewrite <- Hlogits, <- Hsm. apply Hmn. intros Heq.
      pose proof (Hsm logits) as Hl. rewrite Heq in Hl. simpl in Hl. lia. }
    destruct (multinomial (softmax logits) g) as [top g'] eqn:Hdraw. simpl in Htop.
    specialize (IH (one_hot_vec (vocab_size ds) (char2int ds !!! (int2char ds !!! top))) h' g').
    destruct (sampling _ _ _ _ _ _ _ _ _) as [[cs g''] evs]. simpl in IH |- *.
    destruct IH as (Hlen & Hcs & Htops & Heq).
    destruct (int2char_known data ds top Hvocab Htop) as (_ & Hc & _).
    repeat split; [by rewrite Hlen|by constructor|by constructor|by rewrite Heq].
Qed.
End generator_runs.

Section generator_claims.
Context {Num Hidden Params Rng : Type}.
Variable gru_fc : @GRU Params → list nat → Hidden → list Num * Hidden.
Variable zeros : nat → nat → nat → Hidden.
Variable softmax : list Num → list Num.
Variable multinomial : list Num → Rng → nat * Rng.

Lemma seed_vocab_nonempty (data : list (list N)) (ds : TweetDataset) (seed : list N) :
  Vocabulary data ds → seed ≠ [] → Forall (λ c, c ∈ chars ds) seed → 0 < vocab_size ds.
Proof.
  intros Hv Hne Hseed. destruct Hseed as [|c seed Hc _]; [done|].
  apply list_elem_of_lookup in Hc as [i Hi].
  pose proof (Vocabulary_index_lt _ _ _ _ Hv Hi). lia.
Qed.

(** On a valid seed the code and the description of section 4.6 agree, for
    any model whose input and output sizes are the vocabulary size. *)
Lemma generate_run (data : list (list N)) (ds : TweetDataset) (model : @GRU Params)
    (seed : list N) (n : nat) (w : @World Rng) :
  torch_shapes gru_fc softmax multinomial →
  Vocabulary data ds →
  input_size model = vocab_size ds → output_size model = vocab_size ds →
  seed ≠ [] → Forall (λ c, c ∈ chars ds) seed →
  generate gru_fc zeros softmax multinomial model ds seed n w
  = generate_spec gru_fc zeros softmax multinomial model ds seed n w.
Proof.
  intros Hshapes Hv Hin Hout Hne Hseed.
  pose proof (seed_vocab_nonempty _ _ _ Hv Hne Hseed) as Hpos.
  destruct (encode_sequence_known _ _ _ Hv Hseed) as [Henc Hidx].
  unfold generate, generate_spec.
  set (xs := (λ c, one_hot_vec (vocab_size ds) (char2int ds !!! c)) <$> seed).
  assert (Forall (λ x, length x = vocab_size ds) xs) as Hxs.
  { apply Forall_fmap, Forall_forall. intros c _. apply one_hot_vec_length. }
  unfold bind at 1, lift at 1. rewrite Henc.
  unfold bind at 1, lift at 1. rewrite one_hot_sequence_ok by done.
  rewrite <- list_fmap_compose.
  change (one_hot_vec (vocab_size ds) ∘ (λ c, char2int ds !!! c) <$> seed) with xs.
  unfold bind at 1.
  rewrite (prime_run gru_fc ds model Hin) by done.
  unfold bind at 1, lift at 1, item_last.
  destruct (last xs) as [x|] eqn:Hlast.
  2:{ apply last_None in Hlast. apply fmap_nil_inv in Hlast. done. }
  assert (length x = vocab_size ds) as Hx.
  { rewrite Forall_forall in Hxs. apply Hxs. by eapply last_Some_elem_of. }
  rewrite (sample_loop_run gru_fc softmax multinomial Hshapes data ds model Hv Hpos Hin Hout)
    by done.
  simpl. unfold init_hidden.
  destruct (sampling _ _ _ _ _ _ _ _ _) as [[cs g] evs]. simpl.
  by rewrite <- app_assoc.
Qed.
End generator_claims.

Lemma Demo_iteration_order : iteration_order elements.
Proof. intros X. reflexivity. Defined.

Lemma Demo_init : TweetDataset_init elements Demo.corpus 4 = Ok Demo.dataset.
Proof. reflexivity. Defined.

Lemma Demo_shapes : torch_shapes Demo.gru_fc Demo.softmax Demo.multinomial.
Proof.
  split; [|split].
  - intros model x h. apply length_replicate.
  - done.
  - intros dist g Hne. simpl. apply Nat.mod_upper_bound.
    destruct dist; [done|simpl; lia].
Defined.

Lemma Demo_hello_known :
  [104; 101; 108; 108; 111]%N ≠ [] ∧
  Forall (λ c, c ∈ chars Demo.dataset) [104; 101; 108; 108; 111]%N.
Proof.
  split; [done|].
  apply (bool_decide_unpack _). vm_compute. exact I.
Defined.

(** The padded window of [well] ends in a space, which the vocabulary of
    this corpus does not contain: reading that item raises [KeyError]. *)
Example getitem_padded_window :
  TweetDataset_getitem Demo.dataset 1 = Err (KeyError space).
Proof. reflexivity. Qed.

Lemma samples_forward (xs : list (list nat)) : samples (EvForward <$> xs) = [].
Proof. induction xs as [|x xs IH]; [done|]. by csimpl. Qed.

Lemma samples_app (evs1 evs2 : list event) :
  samples (evs1 ++ evs2) = samples evs1 ++ samples evs2.
Proof. apply omap_app. Qed.

Lemma decode_sequence_known (data : list (list N)) (ds : TweetDataset) (tops : list nat) :
  Vocabulary data ds → Forall (λ top, top < vocab_size ds) tops →
  decode_sequence ds tops = Ok ((λ top, int2char ds !!! top) <$> tops).
Proof.
  intros Hv Htops. apply for_each_total. eapply Forall_impl; [done|].
  intros top Htop. by apply (int2char_known data).
Qed.

(** C6 at the corpus [hello], [well], enumerating the set in the order of
    [elements]. *)
Lemma vocabulary_bijection_witness :
  ∃ ds,
    TweetDataset_init elements Demo.corpus 4 = Ok ds ∧
    TweetDataset_init elements Demo.corpus 4 = Ok ds ∧
    StronglySorted N.lt (chars ds) ∧
    (∀ c, c ∈ chars ds ↔ ∃ tweet, tweet ∈ Demo.corpus ∧ c ∈ tweet) ∧
    (∀ i c, int2char ds !! i = Some c ↔ char2int ds !! c = Some i) ∧
    (∀ i, i < vocab_size ds ↔ is_Some (int2char ds !! i)) ∧
    (∀ c, (∃ tweet, tweet ∈ Demo.corpus ∧ c ∈ tweet) ↔ is_Some (char2int ds !! c)) ∧
    (∀ i c, int2char ds !! i = Some c ↔ chars ds !! i = Some c) ∧
    (∀ i j c d, i < j → int2char ds !! i = Some c → int2char ds !! j = Some d → (c < d)%N).
Proof.
  apply (vocabulary_bijection elements elements Demo.corpus 4);
    apply Demo_iteration_order.
Defined.

(** C7. On a dataset built by the constructor, encoding a string of
    vocabulary characters succeeds, and mapping the indices back through
    [int2char] returns the string. *)
Theorem decode_encode_roundtrip (set_iter : gset N → list N) (data : list (list N))
    (L : nat) (ds : TweetDataset) (s : list N) :
  iteration_order set_iter → TweetDataset_init set_iter data L = Ok ds →
  Forall (λ c, c ∈ chars ds) s →
  ∃ idxs, _encode_sequence ds s = Ok idxs ∧ decode_sequence ds idxs = Ok s.
Proof.
  intros Hit Hinit Hs.
  pose proof (TweetDataset_init_Vocabulary _ _ _ _ Hit Hinit) as Hv.
  destruct (encode_known data ds s Hv Hs) as (idxs & Henc & Hdec & _).
  by exists idxs.
Qed.

Lemma decode_encode_roundtrip_witness :
  ∃ idxs, _encode_sequence Demo.dataset [104; 101; 108; 108; 111]%N = Ok idxs ∧
          decode_sequence Demo.dataset idxs = Ok [104; 101; 108; 108; 111]%N.
Proof.
  apply (decode_encode_roundtrip elements Demo.corpus 4 Demo.dataset).
  - apply Demo_iteration_order.
  - reflexivity.
  - apply Demo_hello_known.
Defined.

Section generator_theorems.
Context {Num Hidden Params Rng : Type}.
Variable gru_fc : @GRU Params → list nat → Hidden → list Num * Hidden.
Variable zeros : nat → nat → nat → Hidden.
Variable softmax : list Num → list Num.
Variable multinomial : list Num → Rng → nat * Rng.

(** C8. On a dataset built by the constructor, encoding a sequence that
    holds a character outside the vocabulary raises [KeyError] for such a
    character of the sequence, nothing being substituted; and [generate]
    on such a seed raises the same exception for every model and length,
    leaving the world untouched: no network step, no draw. *)
Theorem unknown_character_rejected (set_iter : gset N → list N) (data : list (list N))
    (L : nat) (ds : TweetDataset) (seq : list N) :
  iteration_order set_iter → TweetDataset_init set_iter data L = Ok ds →
  (∃ c, c ∈ seq ∧ c ∉ chars ds) →
  ∃ c, c ∈ seq ∧ (c ∉ chars ds) ∧
       _encode_sequence ds seq = Err (KeyError c) ∧
       ∀ (model : @GRU Params) (n : nat) (w : @World Rng),
         generate gru_fc zeros softmax multinomial model ds seq n w = (Err (KeyError c), w).
Proof.
  intros Hit Hinit Hunk.
  pose proof (TweetDataset_init_Vocabulary _ _ _ _ Hit Hinit) as Hv.
  destruct (encode_unknown data ds seq Hv Hunk) as (c & Hin & Hc & Henc).
  exists c. repeat split; [done..|].
  intros model n w. unfold generate, bind at 1, lift at 1. by rewrite Henc.
Qed.

(** C3. On a valid seed, [generate] does what section 4.6 describes:
    [generate_spec] primes the hidden state by a fold of single model steps
    over the one-hot seed vectors, then starts from the last seed vector and
    repeats [n] times: model step, softmax, draw, decode, re-encode. *)
Theorem generate_follows_algorithm (set_iter : gset N → list N) (data : list (list N))
    (L : nat) (ds : TweetDataset) (model : @GRU Params) (seed : list N) (n : nat)
    (w : @World Rng) :
  torch_shapes gru_fc softmax multinomial →
  iteration_order set_iter → TweetDataset_init set_iter data L = Ok ds →
  input_size model = vocab_size ds → output_size model = vocab_size ds →
  seed ≠ [] → Forall (λ c, c ∈ chars ds) seed →
  generate gru_fc zeros softmax multinomial model ds seed n w
  = generate_spec gru_fc zeros softmax multinomial model ds seed n w.
Proof.
  intros Hshapes Hit Hinit Hin Hout Hne Hseed.
  pose proof (TweetDataset_init_Vocabulary _ _ _ _ Hit Hinit) as Hv.
  by apply (generate_run gru_fc zeros softmax multinomial data).
Qed.

(** What a successful run on a valid seed looks like. *)
Lemma generate_valid_seed (data : list (list N)) (ds : TweetDataset) (model : @GRU Params)
    (seed : list N) (n : nat) (w : @World Rng) :
  torch_shapes gru_fc softmax multinomial → Vocabulary data ds →
  input_size model = vocab_size ds → output_size model = vocab_size ds →
  seed ≠ [] → Forall (λ c, c ∈ chars ds) seed →
  ∃ res g evs xs,
    generate gru_fc zeros softmax multinomial model ds seed n w
    = (Ok res, mkWorld g (log w ++ (EvForward <$> xs) ++ evs)) ∧
    (try idxs <- _encode_sequence ds seed; _one_hot_sequence idxs (vocab_size ds)) = Ok xs ∧
    length xs = length seed ∧
    length res = n ∧
    Forall (λ c, c ∈ chars ds) res ∧
    Forall (λ top, top < vocab_size ds) (samples evs) ∧
    res = (λ top, int2char ds !!! top) <$> samples evs ∧
    (n = 0 → evs = []).
Proof.
  intros Hshapes Hv Hin Hout Hne Hseed.
  pose proof (seed_vocab_nonempty _ _ _ Hv Hne Hseed) as Hpos.
  rewrite (generate_run gru_fc zeros softmax multinomial data) by done.
  unfold generate_spec.
  set (xs := (λ c, one_hot_vec (vocab_size ds) (char2int ds !!! c)) <$> seed).
  pose proof (sampling_props gru_fc softmax multinomial Hshapes data ds model Hv Hpos Hout
    n (default [] (last xs))
    (primed gru_fc model xs (zeros (n_layers model) 1 (hidden_size model))) (rng w))
    as (Hlen & Hres & Htops & Heq).
  assert (n = 0 → (sampling gru_fc softmax multinomial model ds n (default [] (last xs))
    (primed gru_fc model xs (zeros (n_layers model) 1 (hidden_size model))) (rng w)).2 = [])
    as Hzero by (by intros ->).
  destruct (sampling _ _ _ _ _ _ _ _ _) as [[cs g] evs]. simpl in *.
  exists cs, g, evs, xs. repeat split; try done.
  - destruct (encode_sequence_known _ _ _ Hv Hseed) as [-> Hidx]. simpl.
    rewrite one_hot_sequence_ok by done. by rewrite <- list_fmap_compose.
  - subst xs. by rewrite length_fmap.
Qed.
End generator_theorems.

Section generator_results.
Context {Num Hidden Params Rng : Type}.
Variable gru_fc : @GRU Params → list nat → Hidden → list Num * Hidden.
Variable zeros : nat → nat → nat → Hidden.
Variable softmax : list Num → list Num.
Variable multinomial : list Num → Rng → nat * Rng.

(** C2, amended. For a non-empty seed of vocabulary characters and a model
    whose input and output sizes are the vocabulary size, [generate]
    returns without error a string of exactly [n] characters: the decoding
    of the [n] indices drawn during the call, in order, so nothing of the
    seed.  The seed is replayed through the model first, one step per seed
    character; for [n = 0] that is all that happens and the result is
    empty. *)
Theorem generate_returns_n_sampled (set_iter : gset N → list N) (data : list (list N))
    (L : nat) (ds : TweetDataset) (model : @GRU Params) (seed : list N) (n : nat)
    (w : @World Rng) :
  torch_shapes gru_fc softmax multinomial →
  iteration_order set_iter → TweetDataset_init set_iter data L = Ok ds →
  input_size model = vocab_size ds → output_size model = vocab_size ds →
  seed ≠ [] → Forall (λ c, c ∈ chars ds) seed →
  ∃ res g evs xs,
    generate gru_fc zeros softmax multinomial model ds seed n w
    = (Ok res, mkWorld g (log w ++ (EvForward <$> xs) ++ evs)) ∧
    (try idxs <- _encode_sequence ds seed; _one_hot_sequence idxs (vocab_size ds)) = Ok xs ∧
    length xs = length seed ∧
    length res = n ∧
    length (samples evs) = n ∧
    decode_sequence ds (samples evs) = Ok res ∧
    (n = 0 → res = [] ∧ evs = []).
Proof.
  intros Hshapes Hit Hinit Hin Hout Hne Hseed.
  pose proof (TweetDataset_init_Vocabulary _ _ _ _ Hit Hinit) as Hv.
  destruct (generate_valid_seed gru_fc zeros softmax multinomial data ds model seed n w)
    as (res & g & evs & xs & Hrun & Hxs & Hlenxs & Hlen & _ & Htops & Heq & Hzero); try done.
  exists res, g, evs, xs. do 4 (split; [done|]). split; [|split].
  - rewrite Heq, length_fmap in Hlen. done.
  - rewrite Heq. by apply (decode_sequence_known data).
  - intros ->. split; [by destruct res|by apply Hzero].
Qed.

(** C10. With the model the notebook constructs for the dataset (input and
    output size both [vocab_size]) and a valid seed, [generate] succeeds;
    each of the [n] indices it draws is below [vocab_size], is found in
    [int2char], and the character found re-encodes to the one-hot vector of
    that index; every character returned is in the vocabulary. *)
Theorem generate_samples_in_vocabulary (set_iter : gset N → list N) (data : list (list N))
    (L : nat) (ds : TweetDataset) (wts : Params) (seed : list N) (n : nat)
    (w : @World Rng) :
  torch_shapes gru_fc softmax multinomial →
  iteration_order set_iter → TweetDataset_init set_iter data L = Ok ds →
  seed ≠ [] → Forall (λ c, c ∈ chars ds) seed →
  ∃ res g evs,
    generate gru_fc zeros softmax multinomial (model_for ds wts) ds seed n w
    = (Ok res, mkWorld g (log w ++ evs)) ∧
    length (samples evs) = n ∧
    Forall (λ top,
        top < vocab_size ds ∧
        ∃ c, int2char_get ds top = Ok c ∧
             (try idxs <- _encode_sequence ds [c];
              try vs <- _one_hot_sequence idxs (vocab_size ds);
              item_0 vs) = Ok (one_hot_vec (vocab_size ds) top))
      (samples evs) ∧
    Forall (λ c, c ∈ chars ds) res.
Proof.
  intros Hshapes Hit Hinit Hne Hseed.
  pose proof (TweetDataset_init_Vocabulary _ _ _ _ Hit Hinit) as Hv.
  destruct (generate_valid_seed gru_fc zeros softmax multinomial data ds (model_for ds wts)
              seed n w)
    as (res & g & evs & xs & Hrun & _ & _ & Hlen & Hres & Htops & Heq & _); try done.
  exists res, g, ((EvForward <$> xs) ++ evs).
  rewrite samples_app, samples_forward. simpl.
  repeat split; try done.
  - rewrite Heq, length_fmap in Hlen. done.
  - eapply Forall_impl; [done|]. intros top Htop. split; [done|].
    destruct (int2char_known data ds top Hv Htop) as (Hdec & Hc & Henc).
    exists (int2char ds !!! top). split; [done|].
    destruct (encode_sequence_known data ds [int2char ds !!! top] Hv) as [-> _].
    { by constructor. }
    csimpl. rewrite Henc.
    rewrite (one_hot_sequence_ok _ [top]) by (by constructor). done.
Qed.
End generator_results.

(** C2 as stated fails: the empty seed consists of vocabulary characters
    only, yet [start[-1]] raises [IndexError] on it, for every requested
    length. *)
Lemma generate_empty_seed_fails :
  input_size Demo.model = vocab_size Demo.dataset ∧
  output_size Demo.model = vocab_size Demo.dataset ∧
  Forall (λ c, c ∈ chars Demo.dataset) [] ∧
  generate Demo.gru_fc Demo.zeros Demo.softmax Demo.multinomial
    Demo.model Demo.dataset [] 0 Demo.world0
  = (Err IndexError, Demo.world0) ∧
  ∀ n, generate Demo.gru_fc Demo.zeros Demo.softmax Demo.multinomial
         Demo.model Demo.dataset [] n Demo.world0
       = (Err IndexError, Demo.world0).
Proof.
  split; [reflexivity|]. split; [reflexivity|]. split; [constructor|].
  split; [reflexivity|]. intros n. reflexivity.
Qed.

Lemma generate_returns_n_sampled_witness :
  ∃ res g evs xs,
    generate Demo.gru_fc Demo.zeros Demo.softmax Demo.multinomial
      Demo.model Demo.dataset [104; 101; 108; 108; 111]%N 6 Demo.world0
    = (Ok res, mkWorld g (log Demo.world0 ++ (EvForward <$> xs) ++ evs)) ∧
    (try idxs <- _encode_sequence Demo.dataset [104; 101; 108; 108; 111]%N;
     _one_hot_sequence idxs (vocab_size Demo.dataset)) = Ok xs ∧
    length xs = length [104; 101; 108; 108; 111]%N ∧
    length res = 6 ∧
    length (samples evs) = 6 ∧
    decode_sequence Demo.dataset (samples evs) = Ok res ∧
    (6 = 0 → res = [] ∧ evs = []).
Proof.
  apply (generate_returns_n_sampled Demo.gru_fc Demo.zeros Demo.softmax
           Demo.multinomial elements Demo.corpus 4).
  - apply Demo_shapes.
  - apply Demo_iteration_order.
  - reflexivity.
  - reflexivity.
  - reflexivity.
  - apply Demo_hello_known.
  - apply Demo_hello_known.
Defined.

Lemma generate_follows_algorithm_witness :
  generate Demo.gru_fc Demo.zeros Demo.softmax Demo.multinomial
    Demo.model Demo.dataset [104; 101; 108; 108; 111]%N 6 Demo.world0
  = generate_spec Demo.gru_fc Demo.zeros Demo.softmax Demo.multinomial
      Demo.model Demo.dataset [104; 101; 108; 108; 111]%N 6 Demo.world0.
Proof.
  apply (generate_follows_algorithm Demo.gru_fc Demo.zeros Demo.softmax
           Demo.multinomial elements Demo.corpus 4).
  - apply Demo_shapes.
  - apply Demo_iteration_order.
  - reflexivity.
  - reflexivity.
  - reflexivity.
  - apply Demo_hello_known.
  - apply Demo_hello_known.
Defined.

Lemma generate_samples_in_vocabulary_witness :
  ∃ res g evs,
    generate Demo.gru_fc Demo.zeros Demo.softmax Demo.multinomial
      (model_for Demo.dataset tt) Demo.dataset [104; 101; 108; 108; 111]%N 6
      Demo.world0
    = (Ok res, mkWorld g (log Demo.world0 ++ evs)) ∧
    length (samples evs) = 6 ∧
    Forall (λ top,
        top < vocab_size Demo.dataset ∧
        ∃ c, int2char_get Demo.dataset top = Ok c ∧
             (try idxs <- _encode_sequence Demo.dataset [c];
              try vs <- _one_hot_sequence idxs (vocab_size Demo.dataset);
              item_0 vs) = Ok (one_hot_vec (vocab_size Demo.dataset) top))
      (samples evs) ∧
    Forall (λ c, c ∈ chars Demo.dataset) res.
Proof.
  apply (generate_samples_in_vocabulary Demo.gru_fc Demo.zeros Demo.softmax
           Demo.multinomial elements Demo.corpus 4).
  - apply Demo_shapes.
  - apply Demo_iteration_order.
  - reflexivity.
  - apply Demo_hello_known.
  - apply Demo_hello_known.
Defined.

(** [h] followed by a space: the space is not in the vocabulary. *)
Lemma unknown_character_rejected_witness :
  ∃ c, c ∈ [104; 32]%N ∧ (c ∉ chars Demo.dataset) ∧
       _encode_sequence Demo.dataset [104; 32]%N = Err (KeyError c) ∧
       ∀ (model : @GRU unit) (n : nat) (w : @World nat),
         generate Demo.gru_fc Demo.zeros Demo.softmax Demo.multinomial
           model Demo.dataset [104; 32]%N n w = (Err (KeyError c), w).
Proof.
  apply (unknown_character_rejected Demo.gru_fc Demo.zeros Demo.softmax
           Demo.multinomial elements Demo.corpus 4).
  - apply Demo_iteration_order.
  - reflexivity.
  - exists 32%N. split.
    + apply (bool_decide_unpack _). vm_compute. exact I.
    + apply (bool_decide_unpack _). vm_compute. exact I.
Defined.

(** ** Trainer *)

Section trainer_runs.
Context {Net X Y Output Hid : Type}.
Variable net_init_hidden : Net → nat → Hid.
Variable net_call : Net → X → Hid → result (Output * Hid).
Variable loss_fn : Output → Y → result Q.
Variable backprop : Net → X → Y → Net.

(** With no batch to iterate over, [loss_avg] is still the integer 0 when
    [.item()] is called on it, in the first epoch. *)
Lemma train_no_batches (model : Net) :
  train net_init_hidden net_call loss_fn backprop model [] = ([], Err AttributeError).
Proof. reflexivity. Qed.

(** If every batch goes through, the epoch prints the accumulated loss
    divided by [BATCH_SIZE]. *)
Lemma train_batches_accumulate (model : Net) (loss_avg : pynum) (data : list (X * Y))
    (model' : Net) (loss_avg' : pynum) :
  train_batches net_init_hidden net_call loss_fn backprop model loss_avg data
    = Ok (model', loss_avg') →
  ∃ losses, length losses = length data ∧ loss_avg' = accumulate loss_avg losses.
Proof.
  revert model loss_avg. induction data as [|[x y] data IH]; intros model loss_avg; simpl.
  - intros [= <- <-]. by exists [].
  - destruct (net_call _ _ _) as [[out hid]|]; simpl; [|done].
    destruct (loss_fn out y) as [loss|]; simpl; [|done].
    intros (losses & Hlen & ->)%IH. exists (loss :: losses). simpl. by rewrite Hlen.
Qed.

Lemma train_epoch_reports (model : Net) (data : list (X * Y)) (epoch : nat)
    (model' : Net) (line : option (nat * Q)) :
  train_epoch net_init_hidden net_call loss_fn backprop model data epoch = Ok (model', line) →
  ∃ losses total,
    length losses = length data ∧
    accumulate (PyInt 0) losses = PyTensor total ∧
    line = Some (epoch, (total / inject_Z (Z.of_nat BATCH_SIZE))%Q).
Proof.
  unfold train_epoch.
  destruct (train_batches _ _ _ _ _ _ _) as [[m l]|] eqn:Hb; simpl; [|done].
  apply train_batches_accumulate in Hb as (losses & Hlen & ->).
  destruct (accumulate (PyInt 0) losses) as [z|total] eqn:Hacc; simpl; [done|].
  intros [= <- <-]. by exists losses, total.
Qed.
End trainer_runs.

(** C4 fails on the code: an epoch of two batches with losses 1 and 3 prints
    (1 + 3) / 32 = 1/8, the accumulated loss divided by [BATCH_SIZE], not the
    average 2 over the two batches. *)
Theorem train_epoch_divides_by_batch_size :
  ∃ q : Q,
    train_epoch DemoTrainer.net_init_hidden DemoTrainer.net_call
      DemoTrainer.loss_fn DemoTrainer.backprop 0 DemoTrainer.data 1
    = Ok (2, Some (1, q)) ∧
    (q == (1 + 3) / inject_Z (Z.of_nat BATCH_SIZE))%Q ∧
    (q == 1 # 8)%Q ∧
    ¬ (q == (1 + 3) / inject_Z (Z.of_nat (length DemoTrainer.data)))%Q.
Proof.
  eexists. split; [reflexivity|]. split; [|split]; vm_compute; congruence.
Qed.

(** ** Degenerate corpora *)

Lemma slices_of_nil (L : nat) : slices_of L [] = [].
Proof.
  unfold slices_of. rewrite Nat.div_small by (simpl; lia). done.
Qed.

(** For a corpus without any character the constructor succeeds, with
    [vocab_size = 0], empty mappings and no window pair. *)
Lemma empty_vocabulary_dataset (set_iter : gset N → list N) (data : list (list N))
    (L : nat) :
  iteration_order set_iter → Forall (λ tweet, tweet = []) data →
  ∃ ds,
    TweetDataset_init set_iter data L = Ok ds ∧
    chars ds = [] ∧ vocab_size ds = 0 ∧
    int2char ds = ∅ ∧ char2int ds = ∅ ∧
    sequences ds = [].
Proof.
  intros Hit Hdata. rewrite TweetDataset_init_eq. eexists. split; [done|]. simpl.
  assert (_get_unique_chars set_iter data = []) as ->.
  { apply elem_of_nil_inv. intros c.
    rewrite (get_unique_chars_elem _ Hit). intros (tweet & Htweet & Hc).
    rewrite Forall_forall in Hdata. rewrite (Hdata _ Htweet) in Hc.
    by apply elem_of_nil in Hc. }
  assert (concat (slices_of L <$> data) = []) as ->.
  { induction Hdata as [|tweet data -> _ IH]; [done|].
    csimpl. by rewrite slices_of_nil, IH. }
  done.
Qed.

Section training_cell_runs.
Context {Params Net Output Hid : Type}.
Variable set_iter : gset N → list N.
Variable nn_modules : nat → nat → nat → nat → result Params.
Variable optim_Adam : @GRU Params → result Net.
Variable net_init_hidden : Net → nat → Hid.
Variable net_call : TweetDataset → Net → list nat → Hid → result (Output * Hid).
Variable loss_fn : TweetDataset → Output → list nat → result Q.
Variable backprop : TweetDataset → Net → list nat → list nat → Net.

(** On a corpus without any character the cell passes the dataset
    constructor and the loader; what follows is decided by torch at size 0. *)
Lemma training_cell_empty_vocabulary (data : list (list N)) :
  iteration_order set_iter → Forall (λ tweet, tweet = []) data →
  training_cell set_iter nn_modules optim_Adam net_init_hidden net_call loss_fn backprop data
  = match (try model <- GRU_init nn_modules 0 HIDDEN_SIZE 0 N_LAYERS; optim_Adam model) with
    | Err e => RaisedBySetup e
    | Ok net => Trained [] (Err AttributeError)
    end.
Proof.
  intros Hit Hdata.
  destruct (empty_vocabulary_dataset set_iter data SEQ_LEN Hit Hdata)
    as (ds & Hinit & _ & Hsize & _ & _ & Hseqs).
  unfold training_cell. rewrite Hinit, Hsize. unfold TweetDataset_len. rewrite Hseqs.
  destruct (try model <- GRU_init nn_modules 0 HIDDEN_SIZE 0 N_LAYERS; optim_Adam model)
    as [net|e]; reflexivity.
Qed.

End training_cell_runs.



(** * Further properties of the code *)

(** ** Windows of a corpus *)

Lemma slices_of_count (L : nat) (tweet : list N) :
  length (slices_of L tweet) = (length tweet + L) / (L + 1).
Proof.
  unfold slices_of. rewrite length_fmap, length_seq.
  by replace (S L) with (L + 1) by lia.
Qed.

(** X1. The constructor always succeeds, and [len(dataset)] is the sum over
    the samples of the number of [(L+1)]-strides needed to cover the sample,
    [ceil(len(tweet) / (L+1))]; an empty sample contributes nothing. *)
Theorem dataset_len_strides (set_iter : gset N → list N) (data : list (list N)) (L : nat) :
  ∃ ds,
    TweetDataset_init set_iter data L = Ok ds ∧
    TweetDataset_len ds = sum_list ((λ tweet, (length tweet + L) / (L + 1)) <$> data).
Proof.
  rewrite TweetDataset_init_eq. eexists. split; [done|].
  unfold TweetDataset_len. simpl. rewrite length_fmap.
  induction data as [|tweet data IH]; [done|].
  csimpl. by rewrite length_app, slices_of_count, IH.
Qed.

(** X2. The windows of a corpus are the windows of its samples laid end to
    end in sample order: windowing two corpora one after the other gives the
    windows of the first followed by the windows of the second. *)
Theorem create_sequences_app (data1 data2 : list (list N)) (L : nat) :
  ∃ ws1 ws2,
    _create_sequences data1 L = Ok ws1 ∧
    _create_sequences data2 L = Ok ws2 ∧
    _create_sequences (data1 ++ data2) L = Ok (ws1 ++ ws2).
Proof.
  exists (window_of L <$> concat (slices_of L <$> data1)),
         (window_of L <$> concat (slices_of L <$> data2)).
  rewrite !create_sequences_slices. repeat split.
  by rewrite fmap_app, concat_app, fmap_app.
Qed.

Lemma reassemble_window (L : nat) (sl : list N) :
  0 < L → length sl = L + 1 → reassemble L (window_of L sl) = sl.
Proof.
  intros HL Hlen. unfold reassemble, window_of. simpl.
  rewrite (take_ge (drop 1 sl)) by (rewrite length_drop; lia).
  rewrite drop_drop. replace (1 + (L - 1)) with L by lia.
  apply take_drop.
Qed.

(** X3. For a window length of at least 1 nothing of a sample is lost: the
    inputs, each followed by the last character of its target, spell the
    sample again, followed by the padding spaces, fewer than [L+1] of
    them. *)
Theorem windows_reassemble (tweet : list N) (L : nat) :
  0 < L →
  ∃ ws pad,
    _create_sequences [tweet] L = Ok ws ∧
    pad < L + 1 ∧
    length tweet + pad = length ws * (L + 1) ∧
    concat (reassemble L <$> ws) = tweet ++ replicate pad space.
Proof.
  intros HL. rewrite create_sequences_slices. csimpl. rewrite app_nil_r.
  exists (window_of L <$> slices_of L tweet),
         ((length tweet + L) / S L * S L - length tweet).
  pose proof (Nat.div_mod_eq (length tweet + L) (S L)) as Hdm.
  pose proof (Nat.mod_upper_bound (length tweet + L) (S L)) as Hmod.
  split; [done|]. split; [lia|]. split.
  - rewrite length_fmap, slices_of_count. replace (L + 1) with (S L) by lia. lia.
  - rewrite <- list_fmap_compose.
    rewrite (Forall_fmap_ext_1 (reassemble L ∘ window_of L) id).
    2:{ eapply Forall_impl; [apply slices_of_length|].
        intros sl Hsl. by apply reassemble_window. }
    rewrite list_fmap_id. by apply chunks_concat.
Qed.

Lemma windows_reassemble_witness :
  ∃ ws pad,
    _create_sequences [[119; 101; 108; 108; 33; 33]%N] 3 = Ok ws ∧
    pad < 3 + 1 ∧
    length [119; 101; 108; 108; 33; 33]%N + pad = length ws * (3 + 1) ∧
    concat (reassemble 3 <$> ws) = [119; 101; 108; 108; 33; 33]%N ++ replicate pad space.
Proof. apply (windows_reassemble [119; 101; 108; 108; 33; 33]%N 3). lia. Defined.

Lemma slices_of_chars (L : nat) (tweet : list N) :
  Forall (Forall (λ c, c = space ∨ c ∈ tweet)) (slices_of L tweet).
Proof.
  unfold slices_of. apply Forall_fmap, Forall_forall. intros k _. simpl.
  unfold pad_to. apply Forall_app. split.
  - apply Forall_forall. intros c Hc. right.
    by apply subseteq_take, subseteq_drop in Hc.
  - apply Forall_forall. intros c Hc. left. by apply elem_of_replicate_inv in Hc.
Qed.

(** X4. Every character of every window, input or target, is a character of
    the corpus or the padding space: windowing invents nothing else. *)
Theorem window_characters (data : list (list N)) (L : nat) :
  ∃ ws,
    _create_sequences data L = Ok ws ∧
    Forall (λ w : list N * list N,
        Forall (λ c, c = space ∨ ∃ tweet, tweet ∈ data ∧ c ∈ tweet) (w.1 ++ w.2))
      ws.
Proof.
  rewrite create_sequences_slices. eexists. split; [done|].
  apply Forall_fmap, Forall_concat, Forall_fmap, Forall_forall. intros tweet Htweet.
  eapply Forall_impl; [apply slices_of_chars|]. intros sl Hsl. simpl.
  rewrite Forall_forall in Hsl. apply Forall_forall. intros c Hc.
  assert (c ∈ sl) as Hin.
  { apply elem_of_app in Hc as [Hc|Hc].
    - by apply subseteq_take in Hc.
    - by apply subseteq_take, subseteq_drop in Hc. }
  destruct (Hsl c Hin) as [->|Hct]; [by left|]. right. by exists tweet.
Qed.

(** ** Encoding and one-hot vectors *)

Lemma encode_sequence_Ok (ds : TweetDataset) (s : list N) (idxs : list nat) :
  _encode_sequence ds s = Ok idxs ↔ Forall2 (λ c i, char2int ds !! c = Some i) s idxs.
Proof.
  unfold _encode_sequence. revert idxs. induction s as [|c s IH]; intros idxs; simpl.
  - split; [by intros [= <-]; constructor|by intros ->%Forall2_nil_inv_l].
  - unfold char2int_get at 1. destruct (char2int ds !! c) as [i|] eqn:Hc; simpl.
    + destruct (Res.for_each (char2int_get ds) s) as [idxs'|e] eqn:Hs; simpl.
      * split.
        -- intros [= <-]. constructor; [done|]. by apply IH.
        -- intros (j & idxs'' & Hj & Hrest & ->)%Forall2_cons_inv_l.
           apply IH in Hrest. congruence.
      * split; [done|].
        intros (j & idxs'' & Hj & Hrest & ->)%Forall2_cons_inv_l.
        apply IH in Hrest. done.
    + split; [done|].
      intros (j & idxs'' & Hj & Hrest & ->)%Forall2_cons_inv_l. congruence.
Qed.

Lemma encode_sequence_Err (ds : TweetDataset) (s : list N) (e : exn) :
  _encode_sequence ds s = Err e → ∃ c, c ∈ s ∧ char2int ds !! c = None ∧ e = KeyError c.
Proof.
  unfold _encode_sequence. induction s as [|c s IH]; simpl; [done|].
  unfold char2int_get at 1. destruct (char2int ds !! c) as [i|] eqn:Hc; simpl.
  - destruct (Res.for_each (char2int_get ds) s) as [idxs'|e'] eqn:Hs; simpl; [done|].
    intros [= <-]. destruct IH as (c' & Hin & Hnone & ->); [done|].
    exists c'. split; [by right|done].
  - intros [= <-]. exists c. split; [by left|done].
Qed.

(** X5. On a dataset built by the constructor, encoding returns exactly the
    positions of the characters in the sorted list [chars]: a list of indices
    is the encoding of a string if and only if it reads the string off
    [chars], index by index. *)
Theorem encode_is_position (set_iter : gset N → list N) (data : list (list N)) (L : nat)
    (ds : TweetDataset) (s : list N) (idxs : list nat) :
  iteration_order set_iter → TweetDataset_init set_iter data L = Ok ds →
  _encode_sequence ds s = Ok idxs ↔ Forall2 (λ c i, chars ds !! i = Some c) s idxs.
Proof.
  intros Hit Hinit.
  pose proof (TweetDataset_init_Vocabulary _ _ _ _ Hit Hinit) as Hv.
  rewrite encode_sequence_Ok.
  split; intros H; (eapply Forall2_impl; [done|]); intros c i; apply (vocab_char2int _ _ Hv).
Qed.

Lemma encode_is_position_witness :
  _encode_sequence Demo.dataset [104; 101; 108; 108; 111]%N = Ok [1; 0; 2; 2; 3]
  ↔ Forall2 (λ c i, chars Demo.dataset !! i = Some c) [104; 101; 108; 108; 111]%N [1; 0; 2; 2; 3].
Proof.
  apply (encode_is_position elements Demo.corpus 4).
  - apply Demo_iteration_order.
  - reflexivity.
Defined.

Lemma sum_list_one_hot_vec (V i : nat) : i < V → sum_list (one_hot_vec V i) = 1.
Proof.
  unfold one_hot_vec. revert i. induction V as [|V IH]; intros i Hi; [lia|].
  destruct i as [|i]; simpl.
  - rewrite sum_list_replicate. lia.
  - rewrite IH by lia. done.
Qed.

Lemma lookup_one_hot_vec (V i j : nat) :
  i < V → j < V → one_hot_vec V i !! j = Some (if decide (j = i) then 1 else 0).
Proof.
  intros Hi Hj. unfold one_hot_vec. destruct (decide (j = i)) as [->|Hne].
  - apply list_lookup_insert_eq. by rewrite length_replicate.
  - rewrite list_lookup_insert_ne by done. by apply lookup_replicate_2.
Qed.

(** X6. For indices below [vocab_size], [_one_hot_sequence] returns one
    vector per index, each of length [vocab_size], holding 1 at the index and
    0 everywhere else, so its entries sum to 1. *)
Theorem one_hot_sequence_vectors (seq : list nat) (V : nat) :
  Forall (λ s, s < V) seq →
  ∃ enc,
    _one_hot_sequence seq V = Ok enc ∧
    length enc = length seq ∧
    ∀ k s, seq !! k = Some s →
      ∃ vec, enc !! k = Some vec ∧ length vec = V ∧ sum_list vec = 1 ∧
             ∀ j, j < V → vec !! j = Some (if decide (j = s) then 1 else 0).
Proof.
  intros Hseq. exists (one_hot_vec V <$> seq).
  split; [by apply one_hot_sequence_ok|]. split; [by rewrite length_fmap|].
  intros k s Hk. exists (one_hot_vec V s).
  assert (s < V) as Hs.
  { rewrite Forall_forall in Hseq. apply Hseq. by eapply list_elem_of_lookup_2. }
  split; [by rewrite list_lookup_fmap, Hk|]. split; [apply one_hot_vec_length|].
  split; [by apply sum_list_one_hot_vec|].
  intros j Hj. by apply lookup_one_hot_vec.
Qed.

Lemma one_hot_sequence_vectors_witness :
  ∃ enc,
    _one_hot_sequence [1; 0; 2] 3 = Ok enc ∧
    length enc = length [1; 0; 2] ∧
    ∀ k s, [1; 0; 2] !! k = Some s →
      ∃ vec, enc !! k = Some vec ∧ length vec = 3 ∧ sum_list vec = 1 ∧
             ∀ j, j < 3 → vec !! j = Some (if decide (j = s) then 1 else 0).
Proof. apply (one_hot_sequence_vectors [1; 0; 2] 3). repeat constructor. Defined.

(** X7. [vec[s] = 1] is out of range as soon as one index is not below
    [vocab_size]: [_one_hot_sequence] then raises [IndexError] and returns no
    vector at all. *)
Theorem one_hot_sequence_out_of_range (seq : list nat) (V : nat) :
  (∃ s, s ∈ seq ∧ V ≤ s) → _one_hot_sequence seq V = Err IndexError.
Proof.
  unfold _one_hot_sequence. induction seq as [|s0 seq IH]; intros (s & Hin & Hs).
  - by apply elem_of_nil in Hin.
  - simpl. destruct (decide (s0 < V)) as [Hlt|Hge].
    + rewrite one_hot_ok by done. simpl.
      apply elem_of_cons in Hin as [->|Hin]; [lia|].
      rewrite IH; [done|]. by exists s.
    + rewrite one_hot_out_of_range by lia. done.
Qed.

Lemma one_hot_sequence_out_of_range_witness : _one_hot_sequence [1; 3; 0] 3 = Err IndexError.
Proof.
  apply (one_hot_sequence_out_of_range [1; 3; 0] 3).
  exists 3. split; [|lia]. apply (bool_decide_unpack _). vm_compute. exact I.
Defined.

(** ** Reading an item of the dataset *)

Lemma init_sequences (set_iter : gset N → list N) (data : list (list N)) (L : nat)
    (ds : TweetDataset) :
  TweetDataset_init set_iter data L = Ok ds →
  sequences ds = window_of L <$> concat (slices_of L <$> data).
Proof. rewrite TweetDataset_init_eq. by intros [= <-]. Qed.

Lemma elem_of_concat {A} (x : A) (ls : list (list A)) :
  x ∈ concat ls ↔ ∃ l, l ∈ ls ∧ x ∈ l.
Proof.
  induction ls as [|l ls IH]; simpl.
  - split; [by intros ?%elem_of_nil|by intros (? & ?%elem_of_nil & _)].
  - rewrite elem_of_app, IH. split.
    + intros [?|(l' & ? & ?)]; [exists l; split; [by left|done]|].
      exists l'. split; [by right|done].
    + intros (l' & [->|?]%elem_of_cons & ?); [by left|]. right. by exists l'.
Qed.

Lemma init_sequences_lookup (set_iter : gset N → list N) (data : list (list N)) (L : nat)
    (ds : TweetDataset) (idx : nat) (w : list N * list N) :
  TweetDataset_init set_iter data L = Ok ds → sequences ds !! idx = Some w →
  ∃ tweet sl, tweet ∈ data ∧ length sl = L + 1 ∧ w = window_of L sl ∧
              Forall (λ c, c = space ∨ c ∈ tweet) sl.
Proof.
  intros Hinit Hw. rewrite (init_sequences _ _ _ _ Hinit) in Hw.
  apply list_lookup_fmap_Some in Hw as (sl & -> & Hsl).
  apply list_elem_of_lookup_2, elem_of_concat in Hsl as (sls & Hsls & Hsl).
  apply list_elem_of_fmap in Hsls as (tweet & -> & Htweet).
  exists tweet, sl. split; [done|].
  pose proof (slices_of_length L tweet) as Hlen.
  pose proof (slices_of_chars L tweet) as Hchars.
  rewrite Forall_forall in Hlen, Hchars. by split; [apply Hlen|split; [|apply Hchars]].
Qed.

Lemma char2int_position (data : list (list N)) (ds : TweetDataset) (c : N) :
  Vocabulary data ds → c ∈ chars ds → chars ds !! (char2int ds !!! c) = Some c.
Proof.
  intros Hv [i Hi]%list_elem_of_lookup.
  pose proof (proj2 (vocab_char2int _ _ Hv c i) Hi) as Hlk.
  by rewrite (lookup_total_correct _ _ _ Hlk).
Qed.

(** X8. On a dataset built by the constructor, an item whose characters are
    all in the vocabulary is read as the comments of [__getitem__] say: the
    input has shape [seq_len, vocab_size], the target has shape [seq_len] and
    holds indices below [vocab_size] that point at the target's characters;
    and the input vector at position [j+1] is the one-hot vector of the
    target index at position [j]. *)
Theorem getitem_shapes (set_iter : gset N → list N) (data : list (list N)) (L : nat)
    (ds : TweetDataset) (idx : nat) (inpt target : list N) :
  iteration_order set_iter → TweetDataset_init set_iter data L = Ok ds →
  sequences ds !! idx = Some (inpt, target) →
  Forall (λ c, c ∈ chars ds) inpt → Forall (λ c, c ∈ chars ds) target →
  ∃ x y,
    TweetDataset_getitem ds idx = Ok (x, y) ∧
    length x = L ∧ Forall (λ vec, length vec = vocab_size ds) x ∧
    length y = L ∧ Forall (λ i, i < vocab_size ds) y ∧
    (∀ j i, y !! j = Some i → chars ds !! i = target !! j) ∧
    (∀ j i, j + 1 < L → y !! j = Some i → x !! (j + 1) = Some (one_hot_vec (vocab_size ds) i)).
Proof.
  intros Hit Hinit Hw Hinpt Htarget.
  pose proof (TweetDataset_init_Vocabulary _ _ _ _ Hit Hinit) as Hv.
  destruct (init_sequences_lookup _ _ _ _ _ _ Hinit Hw) as (tweet & sl & _ & Hlen & Heq & _).
  destruct (window_of_shape L sl Hlen) as (Hl1 & Hl2 & Hshift).
  rewrite <- Heq in Hl1, Hl2, Hshift. simpl in Hl1, Hl2, Hshift.
  destruct (encode_sequence_known _ _ _ Hv Hinpt) as [Henc1 Hidx1].
  destruct (encode_sequence_known _ _ _ Hv Htarget) as [Henc2 Hidx2].
  set (f := λ c, char2int ds !!! c) in *.
  exists (one_hot_vec (vocab_size ds) <$> (f <$> inpt)), (f <$> target).
  split.
  { unfold TweetDataset_getitem. rewrite Hw, Henc1. simpl.
    rewrite one_hot_sequence_ok by done. simpl. by rewrite Henc2. }
  split; [by rewrite !length_fmap|]. split.
  { apply Forall_fmap, Forall_forall. intros i _. apply one_hot_vec_length. }
  split; [by rewrite length_fmap|]. split; [done|]. split.
  - intros j i Hj. apply list_lookup_fmap_Some in Hj as (c & -> & Hc).
    rewrite Hc. apply (char2int_position data); [done|].
    rewrite Forall_forall in Htarget. apply Htarget. by eapply list_elem_of_lookup_2.
  - intros j i Hlt Hj. apply list_lookup_fmap_Some in Hj as (c & -> & Hc).
    rewrite Hshift in Hc by done.
    by rewrite !list_lookup_fmap, Hc.
Qed.

Lemma getitem_shapes_witness :
  ∃ x y,
    TweetDataset_getitem Demo.dataset 0 = Ok (x, y) ∧
    length x = 4 ∧ Forall (λ vec, length vec = vocab_size Demo.dataset) x ∧
    length y = 4 ∧ Forall (λ i, i < vocab_size Demo.dataset) y ∧
    (∀ j i, y !! j = Some i →
       chars Demo.dataset !! i = [101; 108; 108; 111]%N !! j) ∧
    (∀ j i, j + 1 < 4 → y !! j = Some i →
       x !! (j + 1) = Some (one_hot_vec (vocab_size Demo.dataset) i)).
Proof.
  apply (getitem_shapes elements Demo.corpus 4 Demo.dataset 0 [104; 101; 108; 108]%N).
  - apply Demo_iteration_order.
  - reflexivity.
  - reflexivity.
  - apply (bool_decide_unpack _). vm_compute. exact I.
  - apply (bool_decide_unpack _). vm_compute. exact I.
Defined.

(** X9. The padding space is added after the vocabulary is built.  When no
    sample of the corpus holds a space, every item whose window was padded
    cannot be read: [__getitem__] raises [KeyError] for the space; the items
    without a space are read without error. *)
Theorem getitem_padding_unknown (set_iter : gset N → list N) (data : list (list N)) (L : nat)
    (ds : TweetDataset) (idx : nat) (inpt target : list N) :
  iteration_order set_iter → TweetDataset_init set_iter data L = Ok ds →
  Forall (λ tweet, space ∉ tweet) data →
  sequences ds !! idx = Some (inpt, target) →
  (space ∈ inpt ++ target → TweetDataset_getitem ds idx = Err (KeyError space)) ∧
  (space ∉ inpt ++ target → ∃ item, TweetDataset_getitem ds idx = Ok item).
Proof.
  intros Hit Hinit Hnospace Hw. rewrite Forall_forall in Hnospace.
  pose proof (TweetDataset_init_Vocabulary _ _ _ _ Hit Hinit) as Hv.
  destruct (init_sequences_lookup _ _ _ _ _ _ Hinit Hw) as (tweet & sl & Htweet & _ & Heq & Hsl).
  assert (space ∉ chars ds) as Hspace.
  { intros (t & Ht & Hin)%(vocab_elem _ _ Hv). by apply (Hnospace t). }
  assert (∀ c, c ∈ inpt ++ target → c ≠ space → c ∈ chars ds) as Hknown.
  { intros c Hc Hne. apply (vocab_elem _ _ Hv). exists tweet. split; [done|].
    injection Heq as -> ->. rewrite Forall_forall in Hsl.
    assert (c ∈ sl) as Hin.
    { apply elem_of_app in Hc as [Hc|Hc].
      - by apply subseteq_take in Hc.
      - by apply subseteq_take, subseteq_drop in Hc. }
    by destruct (Hsl c Hin). }
  assert (∀ s, (∀ c, c ∈ s → c ∈ inpt ++ target) → space ∈ s →
               _encode_sequence ds s = Err (KeyError space)) as Hfail.
  { intros s Hsub Hin.
    destruct (encode_unknown data ds s Hv) as (c & Hc & Hunk & ->); [by exists space|].
    destruct (decide (c = space)) as [->|Hne]; [done|].
    exfalso. apply Hunk, Hknown; [by apply Hsub|done]. }
  assert (∀ s, (∀ c, c ∈ s → c ∈ inpt ++ target) → space ∉ s →
               Forall (λ c, c ∈ chars ds) s) as Hok.
  { intros s Hsub Hnin. apply Forall_forall. intros c Hc.
    apply Hknown; [by apply Hsub|]. by intros ->. }
  unfold TweetDataset_getitem. rewrite Hw. split.
  - intros Hin. destruct (decide (space ∈ inpt)) as [Hi|Hi].
    + rewrite Hfail; [done| |done]. intros c Hc. apply elem_of_app. by left.
    + destruct (encode_sequence_known data ds inpt Hv) as [-> Hidx].
      { apply Hok; [|done]. intros c Hc. apply elem_of_app. by left. }
      simpl. rewrite one_hot_sequence_ok by done. simpl.
      rewrite Hfail; [done| |].
      * intros c Hc. apply elem_of_app. by right.
      * apply elem_of_app in Hin as [?|?]; done.
  - intros Hnin. rewrite elem_of_app in Hnin.
    destruct (encode_sequence_known data ds inpt Hv) as [-> Hidx].
    { apply Hok; [|tauto]. intros c Hc. apply elem_of_app. by left. }
    simpl. rewrite one_hot_sequence_ok by done. simpl.
    destruct (encode_sequence_known data ds target Hv) as [-> _].
    { apply Hok; [|tauto]. intros c Hc. apply elem_of_app. by right. }
    simpl. by eexists.
Qed.

Lemma getitem_padding_unknown_witness :
  (space ∈ [119; 101; 108; 108]%N ++ [101; 108; 108; 32]%N →
   TweetDataset_getitem Demo.dataset 1 = Err (KeyError space)) ∧
  (space ∉ [119; 101; 108; 108]%N ++ [101; 108; 108; 32]%N →
   ∃ item, TweetDataset_getitem Demo.dataset 1 = Ok item).
Proof.
  apply (getitem_padding_unknown elements Demo.corpus 4 Demo.dataset 1).
  - apply Demo_iteration_order.
  - reflexivity.
  - apply (bool_decide_unpack _). vm_compute. exact I.
  - reflexivity.
Defined.

(** X10. On a dataset built by the constructor, [dataset[idx]] raises
    [IndexError] exactly when [idx] is not below [len(dataset)]; below it the
    only exception an item can raise is a [KeyError] of the encoder. *)
Theorem getitem_index_error (set_iter : gset N → list N) (data : list (list N)) (L : nat)
    (ds : TweetDataset) (idx : nat) :
  iteration_order set_iter → TweetDataset_init set_iter data L = Ok ds →
  (TweetDataset_getitem ds idx = Err IndexError ↔ TweetDataset_len ds ≤ idx) ∧
  (idx < TweetDataset_len ds →
   (∃ item, TweetDataset_getitem ds idx = Ok item) ∨
   (∃ c, (c ∉ chars ds) ∧ TweetDataset_getitem ds idx = Err (KeyError c))).
Proof.
  intros Hit Hinit.
  pose proof (TweetDataset_init_Vocabulary _ _ _ _ Hit Hinit) as Hv.
  assert (∀ s e, _encode_sequence ds s = Err e → ∃ c, (c ∉ chars ds) ∧ e = KeyError c) as Herr.
  { intros s e (c & _ & Hnone & ->)%encode_sequence_Err. exists c. split; [|done].
    intros [i Hi]%list_elem_of_lookup. apply (vocab_char2int _ _ Hv) in Hi. congruence. }
  assert (∀ s idxs, _encode_sequence ds s = Ok idxs → Forall (λ i, i < vocab_size ds) idxs)
    as Hlt.
  { intros s idxs Hidxs%encode_sequence_Ok.
    induction Hidxs as [|c i s idxs Hc _ IH]; constructor; [|done].
    apply (vocab_char2int _ _ Hv) in Hc. by eapply Vocabulary_index_lt. }
  assert (idx < TweetDataset_len ds →
    (∃ item, TweetDataset_getitem ds idx = Ok item) ∨
    (∃ c, (c ∉ chars ds) ∧ TweetDataset_getitem ds idx = Err (KeyError c))) as Hin.
  { intros Hidx. unfold TweetDataset_len in Hidx.
    apply lookup_lt_is_Some_2 in Hidx as [[inpt target] Hw].
    unfold TweetDataset_getitem. rewrite Hw.
    destruct (_encode_sequence ds inpt) as [idxs|e] eqn:Hi; simpl.
    2:{ right. destruct (Herr _ _ Hi) as (c & Hc & ->). by exists c. }
    rewrite one_hot_sequence_ok by (by eapply Hlt). simpl.
    destruct (_encode_sequence ds target) as [idxs'|e] eqn:Ht; simpl.
    2:{ right. destruct (Herr _ _ Ht) as (c & Hc & ->). by exists c. }
    left. by eexists. }
  split; [|done]. split.
  - intros Hie. destruct (decide (TweetDataset_len ds ≤ idx)) as [|Hn]; [done|].
    destruct Hin as [[item Hitem]|(c & _ & Hc)]; [lia|congruence..].
  - intros Hge. unfold TweetDataset_getitem.
    by rewrite (lookup_ge_None_2 (sequences ds) idx).
Qed.

Lemma getitem_index_error_witness :
  (TweetDataset_getitem Demo.dataset 2 = Err IndexError ↔ TweetDataset_len Demo.dataset ≤ 2) ∧
  (2 < TweetDataset_len Demo.dataset →
   (∃ item, TweetDataset_getitem Demo.dataset 2 = Ok item) ∨
   (∃ c, (c ∉ chars Demo.dataset) ∧ TweetDataset_getitem Demo.dataset 2 = Err (KeyError c))).
Proof.
  apply (getitem_index_error elements Demo.corpus 4 Demo.dataset 2).
  - apply Demo_iteration_order.
  - reflexivity.
Defined.

(** ** Vocabulary of a corpus *)

Lemma get_unique_chars_Permutation (set_iter : gset N → list N) (data : list (list N)) :
  iteration_order set_iter →
  _get_unique_chars set_iter data ≡ₚ elements (list_to_set (concat data) : gset N).
Proof.
  intros Hit. unfold _get_unique_chars. cbv zeta.
  rewrite merge_sort_Permutation, (Hit _).
  assert (foldl (λ chars tweet, foldl (λ chars char, {[char]} ∪ chars) chars tweet) ∅ data
          = (list_to_set (concat data) : gset N)) as ->; [|done].
  apply set_eq. intros c.
  rewrite corpus_chars_fold, elem_of_list_to_set, elem_of_concat, elem_of_empty. tauto.
Qed.

(** X11. The vocabulary size is the number of distinct characters occurring
    in the corpus, whatever their multiplicity and whatever the order in which
    the set is enumerated. *)
Theorem vocab_size_distinct (set_iter : gset N → list N) (data : list (list N)) (L : nat) :
  iteration_order set_iter →
  ∃ ds,
    TweetDataset_init set_iter data L = Ok ds ∧
    vocab_size ds = size (list_to_set (concat data) : gset N) ∧
    vocab_size ds ≤ sum_list (length <$> data).
Proof.
  intros Hit. rewrite TweetDataset_init_eq. eexists. split; [done|]. simpl.
  rewrite (get_unique_chars_Permutation _ _ Hit).
  split; [done|].
  change (length (elements (list_to_set (concat data) : gset N)))
    with (size (list_to_set (concat data) : gset N)).
  assert (∀ l : list N, size (list_to_set l : gset N) ≤ length l) as Hsize.
  { induction l as [|c l IH].
    - rewrite list_to_set_nil, size_empty. simpl. lia.
    - rewrite list_to_set_cons. simpl.
      pose proof (size_union_alt ({[c]} : gset N) (list_to_set l)) as Hu.
      pose proof (subseteq_size (list_to_set l ∖ {[c]} : gset N) (list_to_set l)) as Hd.
      rewrite size_singleton in Hu.
      assert (list_to_set l ∖ {[c]} ⊆ (list_to_set l : gset N)) as Hsub by apply subseteq_difference_l, reflexivity.
      specialize (Hd Hsub). lia. }
  etrans; [apply Hsize|]. apply Nat.eq_le_incl.
  induction data as [|tweet data IH]; csimpl; [done|].
  by rewrite length_app, IH.
Qed.

Lemma vocab_size_distinct_witness :
  ∃ ds,
    TweetDataset_init elements Demo.corpus 4 = Ok ds ∧
    vocab_size ds = size (list_to_set (concat Demo.corpus) : gset N) ∧
    vocab_size ds ≤ sum_list (length <$> Demo.corpus).
Proof. apply (vocab_size_distinct elements Demo.corpus 4). apply Demo_iteration_order. Defined.

(** X12. The vocabulary depends only on which characters occur in the
    corpus: two corpora with the same characters, in any sample order, with
    any repetitions and for any window lengths, get the same [chars], the same
    [vocab_size] and the same two mappings. *)
Theorem vocabulary_of_character_set (it1 it2 : gset N → list N)
    (data1 data2 : list (list N)) (L1 L2 : nat) :
  iteration_order it1 → iteration_order it2 →
  (list_to_set (concat data1) : gset N) = list_to_set (concat data2) →
  ∃ ds1 ds2,
    TweetDataset_init it1 data1 L1 = Ok ds1 ∧
    TweetDataset_init it2 data2 L2 = Ok ds2 ∧
    chars ds1 = chars ds2 ∧ vocab_size ds1 = vocab_size ds2 ∧
    int2char ds1 = int2char ds2 ∧ char2int ds1 = char2int ds2.
Proof.
  intros H1 H2 Hsame. rewrite !TweetDataset_init_eq. do 2 eexists.
  split; [done|]. split; [done|]. simpl.
  assert (_get_unique_chars it1 data1 = _get_unique_chars it2 data2) as ->; [|done].
  apply (StronglySorted_unique N.le).
  - apply StronglySorted_merge_sort; apply _.
  - apply StronglySorted_merge_sort; apply _.
  - rewrite !get_unique_chars_Permutation by done. by rewrite Hsame.
Qed.

(** [well] then [hello] twice, instead of [hello] then [well]. *)
Lemma vocabulary_of_character_set_witness :
  ∃ ds1 ds2,
    TweetDataset_init elements Demo.corpus 4 = Ok ds1 ∧
    TweetDataset_init elements
      [[119; 101; 108; 108]; [104; 101; 108; 108; 111]; [104; 101; 108; 108; 111]]%N 7
    = Ok ds2 ∧
    chars ds1 = chars ds2 ∧ vocab_size ds1 = vocab_size ds2 ∧
    int2char ds1 = int2char ds2 ∧ char2int ds1 = char2int ds2.
Proof.
  apply (vocabulary_of_character_set elements elements).
  - apply Demo_iteration_order.
  - apply Demo_iteration_order.
  - vm_compute. reflexivity.
Defined.

(** ** Training runs *)

Lemma DataLoader_small {A} (items : list A) (batch_size : nat) :
  length items < batch_size → DataLoader items batch_size = [].
Proof. intros Hlt. unfold DataLoader. by rewrite Nat.div_small. Qed.

Section trainer_extras.
Context {Net X Y Output Hid : Type}.
Variable net_init_hidden : Net → nat → Hid.
Variable net_call : Net → X → Hid → result (Output * Hid).
Variable loss_fn : Output → Y → result Q.
Variable backprop : Net → X → Y → Net.

(** X13. A dataset with fewer than [BATCH_SIZE] items cannot be trained on:
    the loader drops its only, incomplete batch, the batch loop does not
    run, and [train] raises [AttributeError] on [loss_avg.item()] in the
    first epoch, having printed nothing.  [collate] is whatever turns a list
    of items into a batch. *)
Theorem train_small_dataset {A} (items : list A) (collate : list A → X * Y) (model : Net) :
  length items < BATCH_SIZE →
  train net_init_hidden net_call loss_fn backprop model
    (collate <$> DataLoader items BATCH_SIZE)
  = ([], Err AttributeError).
Proof. intros Hlt. by rewrite DataLoader_small. Qed.

Lemma train_batches_rejected (d1 d2 : list (X * Y)) (x : X) (y : Y) (e : exn)
    (model : Net) (loss_avg : pynum) :
  Forall (λ b, ∀ m h, ∃ o, net_call m b.1 h = Ok o ∧ ∃ q, loss_fn o.1 b.2 = Ok q) d1 →
  (∀ m h, net_call m x h = Err e) →
  train_batches net_init_hidden net_call loss_fn backprop model loss_avg (d1 ++ (x, y) :: d2)
  = Err e.
Proof.
  intros Hd1 Hx. revert model loss_avg.
  induction Hd1 as [|[x' y'] d1 Hb _ IH]; intros model loss_avg; simpl.
  - by rewrite Hx.
  - destruct (Hb model (net_init_hidden model BATCH_SIZE)) as (o & Ho & q & Hq).
    simpl in Ho, Hq. rewrite Ho. simpl. rewrite Hq. simpl. apply IH.
Qed.

(** X14. No retry, no skipping: if the network rejects one batch whatever
    its weights (a shape mismatch, say) while the batches before it go
    through, [train] stops in the first epoch with the exception of that
    batch and prints nothing. *)
Theorem train_rejected_batch (d1 d2 : list (X * Y)) (x : X) (y : Y) (e : exn) (model : Net) :
  Forall (λ b, ∀ m h, ∃ o, net_call m b.1 h = Ok o ∧ ∃ q, loss_fn o.1 b.2 = Ok q) d1 →
  (∀ m h, net_call m x h = Err e) →
  train net_init_hidden net_call loss_fn backprop model (d1 ++ (x, y) :: d2) = ([], Err e).
Proof.
  intros Hd1 Hx. unfold train. simpl. unfold train_epoch.
  by rewrite (train_batches_rejected d1 d2 x y e).
Qed.
End trainer_extras.

Lemma train_small_dataset_witness :
  train DemoTrainer.net_init_hidden DemoTrainer.net_call DemoTrainer.loss_fn
    DemoTrainer.backprop 0
    ((λ items : list Q, (tt, foldl Qplus 0%Q items)) <$> DataLoader [1%Q; 3%Q] BATCH_SIZE)
  = ([], Err AttributeError).
Proof.
  apply (train_small_dataset DemoTrainer.net_init_hidden DemoTrainer.net_call
           DemoTrainer.loss_fn DemoTrainer.backprop [1%Q; 3%Q]).
  unfold BATCH_SIZE. simpl. lia.
Defined.

Section trainer_total.
Context {Net X Y Output Hid : Type}.
Variable net_init_hidden : Net → nat → Hid.
Variable call : Net → X → Hid → Output * Hid.
Variable loss : Output → Y → Q.
Variable backprop : Net → X → Y → Net.

Lemma train_batches_pass (model : Net) (total : Q) (data : list (X * Y)) :
  train_batches net_init_hidden (λ m x h, Ok (call m x h)) (λ o y, Ok (loss o y)) backprop
    model (PyTensor total) data
  = Ok ((epoch_pass net_init_hidden call loss backprop model total data).1,
        PyTensor (epoch_pass net_init_hidden call loss backprop model total data).2).
Proof.
  revert model total. induction data as [|[x y] data IH]; intros model total; simpl; [done|].
  by rewrite IH.
Qed.

Lemma train_epoch_pass (model : Net) (data : list (X * Y)) (epoch : nat) :
  data ≠ [] →
  train_epoch net_init_hidden (λ m x h, Ok (call m x h)) (λ o y, Ok (loss o y)) backprop
    model data epoch
  = Ok ((epoch_pass net_init_hidden call loss backprop model (inject_Z 0) data).1,
        Some (epoch,
              ((epoch_pass net_init_hidden call loss backprop model (inject_Z 0) data).2
               / inject_Z (Z.of_nat BATCH_SIZE))%Q)).
Proof.
  intros Hne. destruct data as [|[x y] data]; [done|].
  unfold train_epoch. simpl. rewrite train_batches_pass. reflexivity.
Qed.

Lemma train_loop_pass (model : Net) (data : list (X * Y)) (epochs : list nat)
    (stdout : list (nat * Q)) :
  data ≠ [] →
  train_loop net_init_hidden (λ m x h, Ok (call m x h)) (λ o y, Ok (loss o y)) backprop
    model data epochs stdout
  = (stdout ++ (epochs_pass net_init_hidden call loss backprop model data epochs).1,
     Ok (epochs_pass net_init_hidden call loss backprop model data epochs).2).
Proof.
  intros Hne. revert model stdout.
  induction epochs as [|epoch epochs IH]; intros model stdout; simpl.
  - by rewrite app_nil_r.
  - rewrite train_epoch_pass by done.
    destruct (epoch_pass _ _ _ _ model (inject_Z 0) data) as [model' total]. simpl.
    rewrite IH.
    destruct (epochs_pass _ _ _ _ model' data epochs) as [lines final]. simpl.
    by rewrite <- app_assoc.
Qed.

Lemma epochs_pass_numbers (model : Net) (data : list (X * Y)) (epochs : list nat) :
  (epochs_pass net_init_hidden call loss backprop model data epochs).1.*1 = epochs.
Proof.
  revert model. induction epochs as [|epoch epochs IH]; intros model; simpl; [done|].
  destruct (epoch_pass _ _ _ _ model (inject_Z 0) data) as [model' total].
  specialize (IH model').
  destruct (epochs_pass _ _ _ _ model' data epochs) as [lines final]. csimpl in *.
  by f_equal.
Qed.

(** X15. With at least one batch, and a network and a loss that accept
    every batch, [train] completes: it prints one line per epoch, numbered 1
    to [N_EPOCHS] in order, and returns the weights after all epochs.  The
    weights are updated after every batch and carried from epoch to epoch;
    the number printed for an epoch is the sum of its batch losses, each
    taken under the weights current at that batch, divided by
    [BATCH_SIZE]. *)
Theorem train_completes (model : Net) (data : list (X * Y)) :
  data ≠ [] →
  train net_init_hidden (λ m x h, Ok (call m x h)) (λ o y, Ok (loss o y)) backprop model data
  = ((epochs_pass net_init_hidden call loss backprop model data (seq 1 N_EPOCHS)).1,
     Ok (epochs_pass net_init_hidden call loss backprop model data (seq 1 N_EPOCHS)).2) ∧
  (epochs_pass net_init_hidden call loss backprop model data (seq 1 N_EPOCHS)).1.*1
  = [1; 2; 3; 4; 5; 6; 7; 8; 9; 10].
Proof.
  intros Hne. split.
  - unfold train. by rewrite train_loop_pass.
  - by rewrite epochs_pass_numbers.
Qed.
End trainer_total.

Lemma train_rejected_batch_witness :
  train DemoTrainer.net_init_hidden DemoReject.net_call DemoTrainer.loss_fn
    (λ model _ _, S model) 0 ([(true, 1%Q)] ++ (false, 3%Q) :: [(true, 2%Q)])
  = ([], Err RuntimeError).
Proof.
  apply (train_rejected_batch DemoTrainer.net_init_hidden DemoReject.net_call
           DemoTrainer.loss_fn (λ model _ _, S model) [(true, 1%Q)] [(true, 2%Q)] false 3%Q).
  - constructor; [|constructor]. intros m h. exists (tt, tt). split; [reflexivity|].
    by exists 1%Q.
  - reflexivity.
Defined.

Lemma train_completes_witness :
  train DemoTrainer.net_init_hidden DemoTrainer.net_call DemoTrainer.loss_fn
    DemoTrainer.backprop 0 DemoTrainer.data
  = ((epochs_pass DemoTrainer.net_init_hidden (λ _ _ _, (tt, tt)) (λ _ y, y)
        DemoTrainer.backprop 0 DemoTrainer.data (seq 1 N_EPOCHS)).1,
     Ok (epochs_pass DemoTrainer.net_init_hidden (λ _ _ _, (tt, tt)) (λ _ y, y)
           DemoTrainer.backprop 0 DemoTrainer.data (seq 1 N_EPOCHS)).2) ∧
  (epochs_pass DemoTrainer.net_init_hidden (λ _ _ _, (tt, tt)) (λ _ y, y)
     DemoTrainer.backprop 0 DemoTrainer.data (seq 1 N_EPOCHS)).1.*1
  = [1; 2; 3; 4; 5; 6; 7; 8; 9; 10].
Proof.
  apply (train_completes DemoTrainer.net_init_hidden (λ _ _ _, (tt, tt)) (λ _ y, y)
           DemoTrainer.backprop 0 DemoTrainer.data).
  discriminate.
Defined.

(** ** Generation runs *)

Section generator_extras.
Context {Num Hidden Params Rng : Type}.
Variable gru_fc : @GRU Params → list nat → Hidden → list Num * Hidden.
Variable zeros : nat → nat → nat → Hidden.
Variable softmax : list Num → list Num.
Variable multinomial : list Num → Rng → nat * Rng.

Lemma sampling_events (model : @GRU Params) (ds : TweetDataset) (n : nat) (x : list nat)
    (h : Hidden) (g : Rng) :
  length (sampling gru_fc softmax multinomial model ds n x h g).2 = 2 * n ∧
  length (samples (sampling gru_fc softmax multinomial model ds n x h g).2) = n ∧
  (0 < n → ∃ evs, (sampling gru_fc softmax multinomial model ds n x h g).2 = EvForward x :: evs).
Proof.
  revert x h g. induction n as [|n IH]; intros x h g; simpl.
  - repeat split. lia.
  - destruct (gru_fc model x h) as [logits h'].
    destruct (multinomial (softmax logits) g) as [top g'].
    specialize (IH (one_hot_vec (vocab_size ds) (char2int ds !!! (int2char ds !!! top))) h' g').
    destruct (sampling _ _ _ _ _ _ _ _ _) as [[cs g''] evs]. simpl in *.
    destruct IH as (Hlen & Hsamples & _).
    split; [lia|]. split; [by rewrite Hsamples|]. intros _. by eexists.
Qed.

Lemma sampling_prefix (model : @GRU Params) (ds : TweetDataset) (n m : nat) (x : list nat)
    (h : Hidden) (g : Rng) :
  ∃ rest,
    (sampling gru_fc softmax multinomial model ds (n + m) x h g).1.1
    = (sampling gru_fc softmax multinomial model ds n x h g).1.1 ++ rest.
Proof.
  revert x h g. induction n as [|n IH]; intros x h g; simpl.
  - by eexists.
  - destruct (gru_fc model x h) as [logits h'].
    destruct (multinomial (softmax logits) g) as [top g'].
    destruct (IH (one_hot_vec (vocab_size ds) (char2int ds !!! (int2char ds !!! top))) h' g')
      as [rest Hrest].
    destruct (sampling _ _ _ _ _ (n + m) _ _ _) as [[cs1 g1] evs1].
    destruct (sampling _ _ _ _ _ n _ _ _) as [[cs2 g2] evs2]. simpl in *.
    exists rest. by rewrite Hrest.
Qed.

(** X16. On a valid seed [generate] runs the model [len(seed) + n] times and
    draws [n] times: one step per seed character, then a step and a draw per
    generated character.  When [n > 0] the first generating step feeds the
    last seed vector again, right after priming has fed it: the last seed
    character goes through the model twice. *)
Theorem generate_model_steps (set_iter : gset N → list N) (data : list (list N)) (L : nat)
    (ds : TweetDataset) (model : @GRU Params) (seed : list N) (n : nat) (w : @World Rng) :
  torch_shapes gru_fc softmax multinomial →
  iteration_order set_iter → TweetDataset_init set_iter data L = Ok ds →
  input_size model = vocab_size ds → output_size model = vocab_size ds →
  seed ≠ [] → Forall (λ c, c ∈ chars ds) seed →
  ∃ res g xs evs,
    generate gru_fc zeros softmax multinomial model ds seed n w
    = (Ok res, mkWorld g (log w ++ (EvForward <$> xs) ++ evs)) ∧
    length xs = length seed ∧
    length evs = 2 * n ∧ length (samples evs) = n ∧
    (0 < n → ∃ x evs', last xs = Some x ∧ evs = EvForward x :: evs').
Proof.
  intros Hshapes Hit Hinit Hin Hout Hne Hseed.
  pose proof (TweetDataset_init_Vocabulary _ _ _ _ Hit Hinit) as Hv.
  rewrite (generate_run gru_fc zeros softmax multinomial data) by done.
  unfold generate_spec.
  set (xs := (λ c, one_hot_vec (vocab_size ds) (char2int ds !!! c)) <$> seed).
  destruct (last xs) as [x|] eqn:Hlast.
  2:{ apply last_None, fmap_nil_inv in Hlast. done. }
  simpl.
  pose proof (sampling_events model ds n x
    (primed gru_fc model xs (zeros (n_layers model) 1 (hidden_size model))) (rng w))
    as (Hlen & Hsamples & Hfirst).
  destruct (sampling _ _ _ _ _ _ _ _ _) as [[cs g] evs]. simpl in *.
  exists cs, g, xs, evs. split; [done|]. split; [by subst xs; rewrite length_fmap|].
  split; [done|]. split; [done|].
  intros Hn. destruct (Hfirst Hn) as [evs' ->]. by exists x, evs'.
Qed.

(** X17. From the same world, asking for more characters extends the
    answer: the string generated for length [n] is a prefix of the string
    generated for length [n + m]. *)
Theorem generate_prefix (set_iter : gset N → list N) (data : list (list N)) (L : nat)
    (ds : TweetDataset) (model : @GRU Params) (seed : list N) (n m : nat) (w : @World Rng) :
  torch_shapes gru_fc softmax multinomial →
  iteration_order set_iter → TweetDataset_init set_iter data L = Ok ds →
  input_size model = vocab_size ds → output_size model = vocab_size ds →
  seed ≠ [] → Forall (λ c, c ∈ chars ds) seed →
  ∃ res rest w1 w2,
    generate gru_fc zeros softmax multinomial model ds seed n w = (Ok res, w1) ∧
    generate gru_fc zeros softmax multinomial model ds seed (n + m) w = (Ok (res ++ rest), w2) ∧
    length res = n ∧ length rest = m.
Proof.
  intros Hshapes Hit Hinit Hin Hout Hne Hseed.
  pose proof (TweetDataset_init_Vocabulary _ _ _ _ Hit Hinit) as Hv.
  pose proof (seed_vocab_nonempty _ _ _ Hv Hne Hseed) as Hpos.
  rewrite !(generate_run gru_fc zeros softmax multinomial data) by done.
  unfold generate_spec.
  set (xs := (λ c, one_hot_vec (vocab_size ds) (char2int ds !!! c)) <$> seed).
  set (x := default [] (last xs)).
  set (h := primed gru_fc model xs (zeros (n_layers model) 1 (hidden_size model))).
  destruct (sampling_prefix model ds n m x h (rng w)) as [rest Hrest].
  pose proof (sampling_props gru_fc softmax multinomial Hshapes data ds model Hv Hpos Hout
    n x h (rng w)) as (Hlen1 & _).
  pose proof (sampling_props gru_fc softmax multinomial Hshapes data ds model Hv Hpos Hout
    (n + m) x h (rng w)) as (Hlen2 & _).
  destruct (sampling _ _ _ _ _ (n + m) _ _ _) as [[cs2 g2] evs2].
  destruct (sampling _ _ _ _ _ n _ _ _) as [[cs1 g1] evs1]. simpl in *. subst cs2.
  exists cs1, rest. do 2 eexists. split; [done|]. split; [done|]. split; [done|].
  rewrite length_app in Hlen2. lia.
Qed.

(** X18. A model built for another vocabulary size is refused at once: on
    a valid seed, [generate] raises torch's shape error at the first priming
    step, before any model step has succeeded and before any draw. *)
Theorem generate_wrong_input_size (set_iter : gset N → list N) (data : list (list N))
    (L : nat) (ds : TweetDataset) (model : @GRU Params) (seed : list N) (n : nat)
    (w : @World Rng) :
  iteration_order set_iter → TweetDataset_init set_iter data L = Ok ds →
  input_size model ≠ vocab_size ds →
  seed ≠ [] → Forall (λ c, c ∈ chars ds) seed →
  generate gru_fc zeros softmax multinomial model ds seed n w = (Err RuntimeError, w).
Proof.
  intros Hit Hinit Hin Hne Hseed.
  pose proof (TweetDataset_init_Vocabulary _ _ _ _ Hit Hinit) as Hv.
  destruct (encode_sequence_known _ _ _ Hv Hseed) as [Henc Hidx].
  unfold generate. unfold bind at 1, lift at 1. rewrite Henc.
  unfold bind at 1, lift at 1. rewrite one_hot_sequence_ok by done.
  destruct seed as [|c seed]; [done|]. csimpl.
  unfold bind at 1, bind at 1, forward.
  rewrite decide_False; [done|]. by rewrite one_hot_vec_length.
Qed.
End generator_extras.

Lemma generate_model_steps_witness :
  ∃ res g xs evs,
    generate Demo.gru_fc Demo.zeros Demo.softmax Demo.multinomial
      Demo.model Demo.dataset [104; 101; 108; 108; 111]%N 6 Demo.world0
    = (Ok res, mkWorld g (log Demo.world0 ++ (EvForward <$> xs) ++ evs)) ∧
    length xs = length [104; 101; 108; 108; 111]%N ∧
    length evs = 2 * 6 ∧ length (samples evs) = 6 ∧
    (0 < 6 → ∃ x evs', last xs = Some x ∧ evs = EvForward x :: evs').
Proof.
  apply (generate_model_steps Demo.gru_fc Demo.zeros Demo.softmax Demo.multinomial
           elements Demo.corpus 4).
  - apply Demo_shapes.
  - apply Demo_iteration_order.
  - reflexivity.
  - reflexivity.
  - reflexivity.
  - apply Demo_hello_known.
  - apply Demo_hello_known.
Defined.

Lemma generate_prefix_witness :
  ∃ res rest w1 w2,
    generate Demo.gru_fc Demo.zeros Demo.softmax Demo.multinomial
      Demo.model Demo.dataset [104; 101; 108; 108; 111]%N 2 Demo.world0 = (Ok res, w1) ∧
    generate Demo.gru_fc Demo.zeros Demo.softmax Demo.multinomial
      Demo.model Demo.dataset [104; 101; 108; 108; 111]%N (2 + 4) Demo.world0
    = (Ok (res ++ rest), w2) ∧
    length res = 2 ∧ length rest = 4.
Proof.
  apply (generate_prefix Demo.gru_fc Demo.zeros Demo.softmax Demo.multinomial
           elements Demo.corpus 4).
  - apply Demo_shapes.
  - apply Demo_iteration_order.
  - reflexivity.
  - reflexivity.
  - reflexivity.
  - apply Demo_hello_known.
  - apply Demo_hello_known.
Defined.

Lemma generate_wrong_input_size_witness :
  generate Demo.gru_fc Demo.zeros Demo.softmax Demo.multinomial
    (mkGRU 7 HIDDEN_SIZE 7 N_LAYERS tt) Demo.dataset [104; 101; 108; 108; 111]%N 6 Demo.world0
  = (Err RuntimeError, Demo.world0).
Proof.
  apply (generate_wrong_input_size Demo.gru_fc Demo.zeros Demo.softmax Demo.multinomial
           elements Demo.corpus 4).
  - apply Demo_iteration_order.
  - reflexivity.
  - simpl. vm_compute. lia.
  - apply Demo_hello_known.
  - apply Demo_hello_known.
Defined.
